(** * NodeGLSPClient: session lifecycle and message routing

    A shallow embedding of
    [packages/protocol/src/client-server-protocol/node/node-glsp-client.ts].

    The class runs on the JavaScript event loop.  The embedding keeps the
    class fields in a record, and next to it the few run-time objects that
    [start()] creates (the timer, the [timeOut] promise and the pending
    reaction of [Promise.race(...).then(...).catch(...)]).  Public methods
    are functions on that world; the reaction of the race runs when the
    microtask queue is drained, that is at the end of the current task. *)

From Stdlib Require Import ZArith List String Bool Lia PeanoNat Sorted.
Import ListNotations.
Local Open Scope Z_scope.

(** ** Promises and deferreds *)

(** A JavaScript [Error], identified by its message. *)
Definition Error := string.
Bind Scope string_scope with Error.

(** The settlement of a promise. *)
Inductive Promise (T : Type) : Type :=
| Pending
| Fulfilled (v : T)
| Rejected (e : Error).
Arguments Pending {T}.
Arguments Fulfilled {T} v.
Arguments Rejected {T} e.

(** Settling is one-shot: only a pending promise takes the outcome. *)
Definition settle {T : Type} (p outcome : Promise T) : Promise T :=
  match p with
  | Pending => outcome
  | _ => p
  end.

(** [Deferred<T>] of sprotty-protocol: a promise with its [resolve] and
    [reject] functions exposed. *)
Definition Deferred (T : Type) : Type := Promise T.
Definition resolve {T : Type} (d : Deferred T) (v : T) : Deferred T :=
  settle d (Fulfilled v).
Definition reject {T : Type} (d : Deferred T) (e : Error) : Deferred T :=
  settle d (Rejected e).

(** The completion of a synchronous call: it returns or it throws. *)
Inductive Completion (T : Type) : Type :=
| Returns (v : T)
| Throws (e : Error).
Arguments Returns {T} v.
Arguments Throws {T} e.

(** ** Types declared outside this file *)

(** Modelled from the spec: the [ClientState] enum of [../glsp-client], with
    the lifecycle states the specification lists. *)
Inductive ClientState : Type :=
| Initial
| Starting
| StartFailed
| Running
| Stopping
| Stopped.

(** Modelled from the spec: payload types of [../types] and
    [../../action-protocol]; the session never inspects them. *)
Definition InitializeParameters := string.
Definition InitializeResult := string.
Definition InitializeClientSessionParameters := string.
Definition DisposeClientSessionParameters := string.
Definition ActionMessage := string.
Bind Scope string_scope with InitializeParameters InitializeResult
  InitializeClientSessionParameters DisposeClientSessionParameters
  ActionMessage.

(** Modelled from the spec: the [GLSPServer] interface of [./glsp-server].
    Each method either returns or throws; methods returning a promise return
    its settlement.  A server does not call back into the client. *)
Module Server.
Record GLSPServer : Type := mkServer {
  initialize : InitializeParameters -> Completion (Promise InitializeResult);
  initializeClientSession :
    InitializeClientSessionParameters -> Completion (Promise unit);
  disposeClientSession :
    DisposeClientSessionParameters -> Completion (Promise unit);
  process : ActionMessage -> Completion unit;
  shutdown : Completion unit
}.
End Server.
Export Server(GLSPServer).

(** What a bound server has been asked to do. *)
Inductive ServerCall : Type :=
| CallInitialize (params : InitializeParameters)
| CallInitializeClientSession (params : InitializeClientSessionParameters)
| CallDisposeClientSession (params : DisposeClientSessionParameters)
| CallProcess (message : ActionMessage)
| CallShutdown.

Definition is_shutdown (c : ServerCall) : bool :=
  match c with
  | CallShutdown => true
  | _ => false
  end.

(** An [ActionMessageHandler] is a function object; the handler array
    compares handlers by identity, which a number stands for. *)
Definition ActionMessageHandler := nat.
Bind Scope nat_scope with ActionMessageHandler.

(** ** utils/array-util *)

(** Modelled from the spec: [distinctAdd] of [../../utils/array-util].  The
    registry is an ordered collection in which duplicates are forbidden: a
    value that is absent is pushed at the end, a value that is present is
    not added again. *)
Definition distinctAdd (array : list ActionMessageHandler)
    (value : ActionMessageHandler) : list ActionMessageHandler :=
  if existsb (Nat.eqb value) array then array else (array ++ [value])%list.

(** Modelled from the spec: [remove] of [../../utils/array-util].  It takes
    the value out of the array (the occurrence [indexOf] finds) and keeps
    the others in place. *)
Fixpoint remove (array : list ActionMessageHandler)
    (value : ActionMessageHandler) : list ActionMessageHandler :=
  match array with
  | [] => []
  | x :: rest => if Nat.eqb value x then rest else x :: remove rest value
  end.

(** ** The class *)

Record NodeGLSPClient : Type := mkClient {
  options_id : string;
  state : ClientState;
  _server : option GLSPServer;
  serverDeferred : Deferred GLSPServer;
  onStartDeferred : Deferred unit;
  onStopDeferred : Deferred unit;
  startupTimeout : Z;
  actionMessageHandlers : list ActionMessageHandler
}.

(** The reaction registered on [Promise.race([...])] by [start()]. *)
Inductive RaceReaction : Type :=
| NotCreated
| Armed
| Reacted.

(** The client together with the run-time objects of the event loop that
    belong to it.  [calls] and [history] are ghost logs (newest first): the
    calls received by the bound server and the values assigned to
    [this.state]. *)
Record World : Type := mkWorld {
  client :> NodeGLSPClient;
  clock : Z;
  timer : option Z;
  timeOut : Promise GLSPServer;
  race : RaceReaction;
  calls : list ServerCall;
  history : list ClientState
}.

(** [new NodeGLSPClient({ id })] *)
Definition constructor (id : string) : World :=
  {| client := {| options_id := id;
                  state := Initial;
                  _server := None;
                  serverDeferred := Pending;
                  onStartDeferred := Pending;
                  onStopDeferred := Pending;
                  startupTimeout := 1500;
                  actionMessageHandlers := [] |};
     clock := 0;
     timer := None;
     timeOut := Pending;
     race := NotCreated;
     calls := [];
     history := [Initial] |}.

(** *** Field assignments *)

Definition with_client (f : NodeGLSPClient -> NodeGLSPClient) (w : World) : World :=
  {| client := f (client w);
     clock := clock w;
     timer := timer w;
     timeOut := timeOut w;
     race := race w;
     calls := calls w;
     history := history w |}.

Definition assign_state (s : ClientState) (w : World) : World :=
  {| client := {| options_id := options_id w;
                  state := s;
                  _server := _server w;
                  serverDeferred := serverDeferred w;
                  onStartDeferred := onStartDeferred w;
                  onStopDeferred := onStopDeferred w;
                  startupTimeout := startupTimeout w;
                  actionMessageHandlers := actionMessageHandlers w |};
     clock := clock w;
     timer := timer w;
     timeOut := timeOut w;
     race := race w;
     calls := calls w;
     history := s :: history w |}.

Definition assign_server (srv : GLSPServer) : World -> World :=
  with_client (fun c =>
    {| options_id := options_id c;
       state := state c;
       _server := Some srv;
       serverDeferred := serverDeferred c;
       onStartDeferred := onStartDeferred c;
       onStopDeferred := onStopDeferred c;
       startupTimeout := startupTimeout c;
       actionMessageHandlers := actionMessageHandlers c |}).

Definition assign_serverDeferred (d : Deferred GLSPServer) : World -> World :=
  with_client (fun c =>
    {| options_id := options_id c;
       state := state c;
       _server := _server c;
       serverDeferred := d;
       onStartDeferred := onStartDeferred c;
       onStopDeferred := onStopDeferred c;
       startupTimeout := startupTimeout c;
       actionMessageHandlers := actionMessageHandlers c |}).

Definition assign_onStartDeferred (d : Deferred unit) : World -> World :=
  with_client (fun c =>
    {| options_id := options_id c;
       state := state c;
       _server := _server c;
       serverDeferred := serverDeferred c;
       onStartDeferred := d;
       onStopDeferred := onStopDeferred c;
       startupTimeout := startupTimeout c;
       actionMessageHandlers := actionMessageHandlers c |}).

Definition assign_onStopDeferred (d : Deferred unit) : World -> World :=
  with_client (fun c =>
    {| options_id := options_id c;
       state := state c;
       _server := _server c;
       serverDeferred := serverDeferred c;
       onStartDeferred := onStartDeferred c;
       onStopDeferred := d;
       startupTimeout := startupTimeout c;
       actionMessageHandlers := actionMessageHandlers c |}).

Definition assign_startupTimeout (ms : Z) : World -> World :=
  with_client (fun c =>
    {| options_id := options_id c;
       state := state c;
       _server := _server c;
       serverDeferred := serverDeferred c;
       onStartDeferred := onStartDeferred c;
       onStopDeferred := onStopDeferred c;
       startupTimeout := ms;
       actionMessageHandlers := actionMessageHandlers c |}).

Definition assign_actionMessageHandlers (hs : list ActionMessageHandler)
  : World -> World :=
  with_client (fun c =>
    {| options_id := options_id c;
       state := state c;
       _server := _server c;
       serverDeferred := serverDeferred c;
       onStartDeferred := onStartDeferred c;
       onStopDeferred := onStopDeferred c;
       startupTimeout := startupTimeout c;
       actionMessageHandlers := hs |}).

Definition record_call (c : ServerCall) (w : World) : World :=
  {| client := client w;
     clock := clock w;
     timer := timer w;
     timeOut := timeOut w;
     race := race w;
     calls := c :: calls w;
     history := history w |}.

Definition with_runtime (now : Z) (tm : option Z) (tp : Promise GLSPServer)
    (r : RaceReaction) (w : World) : World :=
  {| client := client w;
     clock := now;
     timer := tm;
     timeOut := tp;
     race := r;
     calls := calls w;
     history := history w |}.

(** *** Error messages *)

Definition already_running_error : Error :=
  "Could not configure new server. The GLSPClient is already running"%string.

Definition startup_timeout_error : Error :=
  "Could not start client. No server is configured"%string.

Definition not_running_error (id : string) : Error :=
  ("Client with id '" ++ id ++ "' is not in 'Running' state")%string.

Definition no_server_error (id : string) : Error :=
  ("No server is configured for GLSPClient with id '" ++ id ++ "'")%string.

(** *** Signals handed to callers *)

(** A promise returned by a method: the promise of one of the two
    deferreds, or the promise of an [async] call that ran to its end. *)
Inductive Signal : Type :=
| OnStartPromise
| OnStopPromise
| AsyncResult (p : Promise unit).

(** [onStart()] and [onStop()] *)
Definition onStart (w : World) : Signal := OnStartPromise.
Definition onStop (w : World) : Signal := OnStopPromise.

(** The outcome a waiter of the signal sees in world [w]. *)
Definition outcome (w : World) (s : Signal) : Promise unit :=
  match s with
  | OnStartPromise => onStartDeferred w
  | OnStopPromise => onStopDeferred w
  | AsyncResult p => p
  end.

(** *** configureServer *)

Definition configureServer (server : GLSPServer) (w : World)
  : World * Completion unit :=
  match state w with
  | Running => (w, Throws already_running_error)
  | _ => (assign_serverDeferred (resolve (serverDeferred w) server) w, Returns tt)
  end.

(** *** start *)

(** The delay [setTimeout(callback, ms)] waits for: a delay below 1 or
    above [TIMEOUT_MAX] is set to 1. *)
Definition TIMEOUT_MAX : Z := 2147483647.

Definition setTimeout_delay (ms : Z) : Z :=
  if (1 <=? ms) && (ms <=? TIMEOUT_MAX) then ms else 1.

(** [start()] in state [Initial] assigns [Starting], creates the [timeOut]
    promise with its timer, and registers the reaction on the race. *)
Definition start (w : World) : World * Signal :=
  match state w with
  | Initial =>
      let w1 := assign_state Starting w in
      let due := clock w1 + setTimeout_delay (startupTimeout w1) in
      (with_runtime (clock w1) (Some due) Pending Armed w1, OnStartPromise)
  | _ => (w, OnStartPromise)
  end.

(** [Promise.race([p, q])] as seen when the microtask queue is drained: the
    settlement of [p] if it has one, else that of [q]. *)
Definition promise_race {T : Type} (p q : Promise T) : Promise T := settle p q.

(** The [.then(server => ...)] callback. *)
Definition thenCallback (server : GLSPServer) (w : World) : World :=
  let w1 := assign_server server w in
  let w2 := assign_state Running w1 in
  assign_onStartDeferred (resolve (onStartDeferred w2) tt) w2.

(** The [.catch(error => ...)] callback. *)
Definition catchCallback (error : Error) (w : World) : World :=
  let w1 := assign_state StartFailed w in
  assign_onStartDeferred (reject (onStartDeferred w1) error) w1.

Definition mark_reacted (w : World) : World :=
  with_runtime (clock w) (timer w) (timeOut w) Reacted w.

(** Draining the microtask queue at the end of a task: a settled race runs
    its reaction, once. *)
Definition runMicrotasks (w : World) : World :=
  match race w with
  | Armed =>
      match promise_race (serverDeferred w) (timeOut w) with
      | Pending => w
      | Fulfilled server => thenCallback server (mark_reacted w)
      | Rejected error => catchCallback error (mark_reacted w)
      end
  | _ => w
  end.

(** The [setTimeout] callback of [start()]: it rejects [timeOut]. *)
Definition fireTimer (w : World) : World :=
  match timer w with
  | Some due =>
      if due <=? clock w
      then with_runtime (clock w) None
             (settle (timeOut w) (Rejected startup_timeout_error)) (race w) w
      else w
  | None => w
  end.

Definition advance (ms : Z) (w : World) : World :=
  with_runtime (clock w + Z.max 0 ms) (timer w) (timeOut w) (race w) w.

(** The event loop idles for [ms] milliseconds: the current task ends, time
    passes, a due timer runs as a task of its own, followed by its
    microtasks. *)
Definition elapse (ms : Z) (w : World) : World :=
  runMicrotasks (fireTimer (advance ms (runMicrotasks w))).

(** *** stop *)

Definition stop (w : World) : World * Signal :=
  match state w with
  | Stopped | Stopping => (w, onStop w)
  | _ =>
      let w1 := assign_state Stopping w in
      let '(w2, tried) :=
        match _server w1 with
        | Some server => (record_call CallShutdown w1, Server.shutdown server)
        | None => (w1, Returns tt)
        end in
      let w3 := assign_state Stopped w2 in
      let w4 := assign_onStopDeferred (resolve (onStopDeferred w3) tt) w3 in
      (w4, AsyncResult match tried with
                       | Returns _ => Fulfilled tt
                       | Throws e => Rejected e
                       end)
  end.

(** *** Checked access to the server *)

Definition id (w : World) : string := options_id w.

Definition checkState (w : World) : Completion unit :=
  match state w with
  | Running => Returns tt
  | _ => Throws (not_running_error (id w))
  end.

Definition checkedServer (w : World) : Completion GLSPServer :=
  match checkState w with
  | Throws e => Throws e
  | Returns _ =>
      match _server w with
      | None => Throws (no_server_error (id w))
      | Some server => Returns server
      end
  end.

Definition initializeServer (params : InitializeParameters) (w : World)
  : World * Completion (Promise InitializeResult) :=
  match checkedServer w with
  | Throws e => (w, Throws e)
  | Returns server =>
      (record_call (CallInitialize params) w, Server.initialize server params)
  end.

Definition initializeClientSession (params : InitializeClientSessionParameters)
    (w : World) : World * Completion (Promise unit) :=
  match checkedServer w with
  | Throws e => (w, Throws e)
  | Returns server =>
      (record_call (CallInitializeClientSession params) w,
       Server.initializeClientSession server params)
  end.

Definition disposeClientSession (params : DisposeClientSessionParameters)
    (w : World) : World * Completion (Promise unit) :=
  match checkedServer w with
  | Throws e => (w, Throws e)
  | Returns server =>
      (record_call (CallDisposeClientSession params) w,
       Server.disposeClientSession server params)
  end.

Definition shutdownServer (w : World) : World * Completion unit :=
  match checkedServer w with
  | Throws e => (w, Throws e)
  | Returns server => (record_call CallShutdown w, Server.shutdown server)
  end.

Definition sendActionMessage (message : ActionMessage) (w : World)
  : World * Completion unit :=
  match checkedServer w with
  | Throws e => (w, Throws e)
  | Returns server =>
      (record_call (CallProcess message) w, Server.process server message)
  end.

(** *** Message handlers *)

(** The [Disposable] returned by [onActionMessage(handler)]: disposing it
    removes [handler]. *)
Definition Disposable := ActionMessageHandler.
Bind Scope nat_scope with Disposable.

Definition onActionMessage (handler : ActionMessageHandler) (w : World)
  : World * Disposable :=
  (assign_actionMessageHandlers
     (distinctAdd (actionMessageHandlers w) handler) w, handler).

Definition dispose (d : Disposable) (w : World) : World :=
  assign_actionMessageHandlers (remove (actionMessageHandlers w) d) w.

Definition setStartupTimeout (ms : Z) (w : World) : World :=
  assign_startupTimeout ms w.

Definition currentState (w : World) : ClientState := state w.

(** *** The proxy handed to the server *)

(** What a handler does when it is invoked: it may register and dispose
    handlers of this client, and it returns or throws. *)
Inductive RegistryCall : Type :=
| Subscribe (handler : ActionMessageHandler)
| Unsubscribe (d : Disposable).

Record HandlerRun : Type := mkRun {
  registry_calls : list RegistryCall;
  completion : Completion unit
}.

Definition Behaviour := ActionMessageHandler -> ActionMessage -> HandlerRun.

Definition apply_call (w : World) (c : RegistryCall) : World :=
  match c with
  | Subscribe handler => fst (onActionMessage handler w)
  | Unsubscribe d => dispose d w
  end.

Definition Delivery : Type := ActionMessageHandler * ActionMessage.

(** [snapshot.forEach(handler => handler(message))]: the handlers of the
    copied array are called in turn; a handler that throws ends the loop. *)
Fixpoint forEach (behaviour : Behaviour) (message : ActionMessage)
    (snapshot : list ActionMessageHandler) (w : World)
    (delivered : list Delivery) : World * list Delivery * Completion unit :=
  match snapshot with
  | [] => (w, delivered, Returns tt)
  | handler :: rest =>
      let run := behaviour handler message in
      let w1 := fold_left apply_call (registry_calls run) w in
      let delivered1 := (delivered ++ [(handler, message)])%list in
      match completion run with
      | Throws e => (w1, delivered1, Throws e)
      | Returns _ => forEach behaviour message rest w1 delivered1
      end
  end.

(** The result of one [proxy.process(message)]: the world afterwards, the
    handler invocations in order, whether [console.warn] was called, and
    how the call completed. *)
Record Dispatch : Type := mkDispatch {
  after : World;
  invoked : list Delivery;
  warned : bool;
  completed : Completion unit
}.

Definition proxy_process (behaviour : Behaviour) (message : ActionMessage)
    (w : World) : Dispatch :=
  if (List.length (actionMessageHandlers w) =? 0)%nat
  then {| after := w; invoked := []; warned := true; completed := Returns tt |}
  else
    let '(w1, delivered, r) :=
      forEach behaviour message (actionMessageHandlers w) w [] in
    {| after := w1; invoked := delivered; warned := false; completed := r |}.

(** ** Sessions as sequences of events *)

(** What can happen to a client: a call of a public method, a message from
    the server, the end of the current task, or time passing. *)
Inductive Event : Type :=
| Start
| ConfigureServer (server : GLSPServer)
| Stop
| SetStartupTimeout (ms : Z)
| InitializeServer (params : InitializeParameters)
| InitializeClientSession (params : InitializeClientSessionParameters)
| DisposeClientSession (params : DisposeClientSessionParameters)
| ShutdownServer
| SendActionMessage (message : ActionMessage)
| OnActionMessage (handler : ActionMessageHandler)
| Dispose (d : Disposable)
| ServerSends (behaviour : Behaviour) (message : ActionMessage)
| EndOfTask
| Elapse (ms : Z).

Definition step (ev : Event) (w : World) : World :=
  match ev with
  | Start => fst (start w)
  | ConfigureServer server => fst (configureServer server w)
  | Stop => fst (stop w)
  | SetStartupTimeout ms => setStartupTimeout ms w
  | InitializeServer params => fst (initializeServer params w)
  | InitializeClientSession params => fst (initializeClientSession params w)
  | DisposeClientSession params => fst (disposeClientSession params w)
  | ShutdownServer => fst (shutdownServer w)
  | SendActionMessage message => fst (sendActionMessage message w)
  | OnActionMessage handler => fst (onActionMessage handler w)
  | Dispose d => dispose d w
  | ServerSends behaviour message => after (proxy_process behaviour message w)
  | EndOfTask => runMicrotasks w
  | Elapse ms => elapse ms w
  end.

Definition exec (evs : list Event) (w : World) : World :=
  fold_left (fun w ev => step ev w) evs w.

Inductive reachable : World -> Prop :=
| reachable_new (id : string) : reachable (constructor id)
| reachable_step (ev : Event) (w : World) :
    reachable w -> reachable (step ev w).


Definition shutdown_count (w : World) : nat :=
  List.length (filter is_shutdown (calls w)).

(** ** The transition graph of the lifecycle *)

(** The edges of the lifecycle graph: Initial -> Starting ->
    (Running | StartFailed); Running -> Stopping -> Stopped; and
    Initial / Starting / StartFailed -> Stopping. *)
Definition transition (from to : ClientState) : bool :=
  match from, to with
  | Initial, Starting
  | Starting, Running
  | Starting, StartFailed
  | Running, Stopping
  | Stopping, Stopped
  | Initial, Stopping
  | Starting, Stopping
  | StartFailed, Stopping => true
  | _, _ => false
  end.

(** The two further assignments the reaction of the race can make when
    [stop()] ran while the race was still open. *)
Definition late_reaction (from to : ClientState) : bool :=
  match from, to with
  | Stopped, Running
  | Stopped, StartFailed => true
  | _, _ => false
  end.

(** Every assignment in a history (newest first) is allowed by [edge]. *)
Fixpoint follows (edge : ClientState -> ClientState -> bool)
    (newest_first : list ClientState) : Prop :=
  match newest_first with
  | to :: (from :: _) as earlier => edge from to = true /\ follows edge earlier
  | _ => True
  end.

(** ** Dispatch on lists *)

(** The handler array after a handler's calls, as a function on lists. *)
Definition registry_step (array : list ActionMessageHandler) (c : RegistryCall)
  : list ActionMessageHandler :=
  match c with
  | Subscribe handler => distinctAdd array handler
  | Unsubscribe d => remove array d
  end.

(** The handlers a dispatch invokes: the snapshot up to and including the
    first handler that throws. *)
Fixpoint invoked_handlers (behaviour : Behaviour) (message : ActionMessage)
    (snapshot : list ActionMessageHandler) : list ActionMessageHandler :=
  match snapshot with
  | [] => []
  | handler :: rest =>
      match completion (behaviour handler message) with
      | Throws _ => [handler]
      | Returns _ => handler :: invoked_handlers behaviour message rest
      end
  end.

(** All registry calls made during a dispatch, in order. *)
Definition dispatch_calls (behaviour : Behaviour) (message : ActionMessage)
    (snapshot : list ActionMessageHandler) : list RegistryCall :=
  flat_map (fun h => registry_calls (behaviour h message))
           (invoked_handlers behaviour message snapshot).

(** ** Invariants of reachable worlds *)

(** The assignments a session can make: the lifecycle graph, and the late
    reactions of the race. *)
Definition assignment (from to : ClientState) : bool :=
  transition from to || late_reaction from to.

(** How the fields agree with the progress of the race that [start()]
    opened. *)
Definition race_shape (w : World) : Prop :=
  match race w with
  | NotCreated =>
      (state w = Initial \/ state w = Stopped)
      /\ _server w = None
      /\ onStartDeferred w = Pending
      /\ timer w = None
      /\ timeOut w = Pending
  | Armed =>
      (state w = Starting \/ state w = Stopped)
      /\ _server w = None
      /\ onStartDeferred w = Pending
      /\ timeOut w = Pending
      /\ exists due, timer w = Some due
  | Reacted =>
      (exists server,
          _server w = Some server
          /\ serverDeferred w = Fulfilled server
          /\ onStartDeferred w = Fulfilled tt
          /\ (state w = Running \/ state w = Stopped))
      \/ (_server w = None
          /\ onStartDeferred w = Rejected startup_timeout_error
          /\ (state w = StartFailed \/ state w = Stopped))
  end.

Record consistent (w : World) : Prop := mkConsistent {
  consistent_race : race_shape w;
  consistent_gate : forall e, serverDeferred w <> Rejected e;
  consistent_stopped : state w = Stopped -> onStopDeferred w = Fulfilled tt;
  consistent_onStop : forall e, onStopDeferred w <> Rejected e;
  consistent_handlers : NoDup (actionMessageHandlers w);
  consistent_head : hd_error (history w) = Some (state w);
  consistent_history : follows assignment (history w)
}.

(** ** Servers used in scenarios *)

(** A server whose methods all return. *)
Definition quiet_server : GLSPServer :=
  {| Server.initialize := fun _ => Returns (Fulfilled "ok"%string);
     Server.initializeClientSession := fun _ => Returns (Fulfilled tt);
     Server.disposeClientSession := fun _ => Returns (Fulfilled tt);
     Server.process := fun _ => Returns tt;
     Server.shutdown := Returns tt |}.

(** A server whose [shutdown()] throws [e]. *)
Definition failing_shutdown_server (e : Error) : GLSPServer :=
  {| Server.initialize := fun _ => Returns (Fulfilled "ok"%string);
     Server.initializeClientSession := fun _ => Returns (Fulfilled tt);
     Server.disposeClientSession := fun _ => Returns (Fulfilled tt);
     Server.process := fun _ => Returns tt;
     Server.shutdown := Throws e |}.

(** A started client bound to [server]: [start()], [configureServer(server)]
    and the end of the task. *)
Definition running_with (server : GLSPServer) : World :=
  exec [Start; ConfigureServer server; EndOfTask] (constructor "client").

(** ** What [stop()] does on its first call *)

(** [stop()] does its work unless the state is [Stopping] or [Stopped]. *)
Definition stop_takes_effect (w : World) : bool :=
  match state w with
  | Stopped | Stopping => false
  | _ => true
  end.

(** The number of [shutdown()] calls one [stop()] makes. *)
Definition shutdowns_by_stop (w : World) : nat :=
  if stop_takes_effect w
  then match _server w with Some _ => 1%nat | None => 0%nat end
  else 0%nat.

(** The settlement of the promise the first of several [stop()] calls
    returns, once the stopped signal is resolved. *)
Definition first_stop_outcome (w : World) : Promise unit :=
  if stop_takes_effect w
  then match _server w with
       | Some server =>
           match Server.shutdown server with
           | Returns _ => Fulfilled tt
           | Throws e => Rejected e
           end
       | None => Fulfilled tt
       end
  else Fulfilled tt.

(** ** A failed start is final *)

(** A start that failed is final: no server is stored afterwards and the
    state is [StartFailed] until [stop()] makes it [Stopped]. *)
Definition start_failed_for_good (w : World) : Prop :=
  race w = Reacted /\ _server w = None
  /\ (state w = StartFailed \/ state w = Stopped).

(** ** The operations that need a server *)

Inductive ServerOperation : Type :=
| OpInitializeServer (params : InitializeParameters)
| OpInitializeClientSession (params : InitializeClientSessionParameters)
| OpDisposeClientSession (params : DisposeClientSessionParameters)
| OpShutdownServer
| OpSendActionMessage (message : ActionMessage).

Definition thrown {T : Type} (c : Completion T) : option Error :=
  match c with
  | Throws e => Some e
  | Returns _ => None
  end.

(** One of the five operations, with the error it throws, if any. *)
Definition perform (op : ServerOperation) (w : World) : World * option Error :=
  match op with
  | OpInitializeServer params =>
      let '(w', r) := initializeServer params w in (w', thrown r)
  | OpInitializeClientSession params =>
      let '(w', r) := initializeClientSession params w in (w', thrown r)
  | OpDisposeClientSession params =>
      let '(w', r) := disposeClientSession params w in (w', thrown r)
  | OpShutdownServer =>
      let '(w', r) := shutdownServer w in (w', thrown r)
  | OpSendActionMessage message =>
      let '(w', r) := sendActionMessage message w in (w', thrown r)
  end.

(** The call an operation forwards to the server. *)
Definition forwarded (op : ServerOperation) : ServerCall :=
  match op with
  | OpInitializeServer params => CallInitialize params
  | OpInitializeClientSession params => CallInitializeClientSession params
  | OpDisposeClientSession params => CallDisposeClientSession params
  | OpShutdownServer => CallShutdown
  | OpSendActionMessage message => CallProcess message
  end.

(** ** Handler behaviours used in scenarios *)

(** Every handler returns and leaves the registry alone. *)
Definition passive : Behaviour :=
  fun _ _ => {| registry_calls := []; completion := Returns tt |}.

(** Every handler disposes its own registration and returns. *)
Definition self_disposing : Behaviour :=
  fun handler _ =>
    {| registry_calls := [Unsubscribe handler]; completion := Returns tt |}.

(** Handler 1 throws; the others return. *)
Definition first_throws : Behaviour :=
  fun handler _ =>
    {| registry_calls := [];
       completion := if Nat.eqb handler 1
                     then Throws "handler failed"
                     else Returns tt |}.

(** A client with handlers 1 and 2 registered, in that order. *)
Definition two_handlers : World :=
  exec [OnActionMessage 1; OnActionMessage 2] (constructor "client").

(** The handlers a dispatch has called, in call order. *)
Definition called (d : Dispatch) : list ActionMessageHandler :=
  map fst (invoked d).

(** A message used in scenarios. *)
Definition ping : ActionMessage := "ping".

(** ** Registration times *)

(** A registered handler with the time of the registry call that put it
    into the array; times count the registry calls of the session. *)
Definition Registration : Type := ActionMessageHandler * nat.

Definition register (regs : list Registration) (handler : ActionMessageHandler)
    (time : nat) : list Registration :=
  if existsb (Nat.eqb handler) (map fst regs)
  then regs
  else (regs ++ [(handler, time)])%list.

Fixpoint unregister (regs : list Registration) (handler : ActionMessageHandler)
  : list Registration :=
  match regs with
  | [] => []
  | r :: rest =>
      if Nat.eqb handler (fst r) then rest else r :: unregister rest handler
  end.

Definition stamp_step (regs : list Registration) (time : nat) (c : RegistryCall)
  : list Registration :=
  match c with
  | Subscribe handler => register regs handler time
  | Unsubscribe d => unregister regs d
  end.

Fixpoint registrations (cs : list RegistryCall) (time : nat)
    (regs : list Registration) : list Registration :=
  match cs with
  | [] => regs
  | c :: rest => registrations rest (S time) (stamp_step regs time c)
  end.

(** The registry calls an event makes. *)
Definition registry_calls_of (ev : Event) (w : World) : list RegistryCall :=
  match ev with
  | OnActionMessage handler => [Subscribe handler]
  | Dispose d => [Unsubscribe d]
  | ServerSends behaviour message =>
      dispatch_calls behaviour message (actionMessageHandlers w)
  | _ => []
  end.

Fixpoint registry_trace (evs : list Event) (w : World) : list RegistryCall :=
  match evs with
  | [] => []
  | ev :: rest => (registry_calls_of ev w ++ registry_trace rest (step ev w))%list
  end.

(** The registrations that are live after the events [evs] of a new
    client. *)
Definition live_registrations (evs : list Event) (id : string)
  : list Registration :=
  registrations (registry_trace evs (constructor id)) 0 [].

Definition earlier (a b : Registration) : Prop := (snd a < snd b)%nat.

(** Registrations are kept in the order of their times. *)
Definition in_time_order (bound : nat) (regs : list Registration) : Prop :=
  StronglySorted earlier regs
  /\ Forall (fun r => (snd r < bound)%nat) regs.

(** ** What one event does to the lifecycle *)

Definition state_eqb (a b : ClientState) : bool :=
  match a, b with
  | Initial, Initial | Starting, Starting | StartFailed, StartFailed
  | Running, Running | Stopping, Stopping | Stopped, Stopped => true
  | _, _ => false
  end.

(** How often a state has been assigned. *)
Definition assigned (s : ClientState) (w : World) : nat :=
  List.length (filter (state_eqb s) (history w)).

(** The lifecycle fields after one event, compared with before: nothing
    changed, or [start()] opened the race, or [stop()] ran, or the reaction
    of the race stored the server or recorded the timeout. *)
Inductive StepEffect (w w' : World) : Prop :=
| effect_none :
    state w' = state w -> history w' = history w ->
    _server w' = _server w -> race w' = race w ->
    onStartDeferred w' = onStartDeferred w ->
    onStopDeferred w' = onStopDeferred w ->
    StepEffect w w'
| effect_started :
    state w = Initial -> state w' = Starting ->
    history w' = Starting :: history w ->
    _server w' = _server w -> race w' = Armed ->
    onStartDeferred w' = onStartDeferred w ->
    onStopDeferred w' = onStopDeferred w ->
    StepEffect w w'
| effect_stopped :
    state w <> Stopped -> state w' = Stopped ->
    history w' = Stopped :: Stopping :: history w ->
    _server w' = _server w -> race w' = race w ->
    onStartDeferred w' = onStartDeferred w ->
    onStopDeferred w' = Fulfilled tt ->
    StepEffect w w'
| effect_attached (server : GLSPServer) :
    race w = Armed -> serverDeferred w = Fulfilled server ->
    state w' = Running -> history w' = Running :: history w ->
    _server w' = Some server -> race w' = Reacted ->
    onStartDeferred w' = Fulfilled tt ->
    onStopDeferred w' = onStopDeferred w ->
    StepEffect w w'
| effect_timed_out :
    race w = Armed -> serverDeferred w = Pending ->
    state w' = StartFailed -> history w' = StartFailed :: history w ->
    _server w' = _server w -> race w' = Reacted ->
    onStartDeferred w' = Rejected startup_timeout_error ->
    onStopDeferred w' = onStopDeferred w ->
    StepEffect w w'.

(** * AiAssistantUi: the chat widget

    The widget of the diagram assistant.  Of the DOM the embedding keeps what
    the class reads and writes: the value of the input, the icon and class
    name of the send button, the class list of the container, and the
    messages appended to the chat box.  [trim] (of [String.prototype]) and
    [makeHtml] (of the showdown [Converter]) are taken as they come. *)

Module AiAssistantUi.

(** The double quote character, for the inline SVG markup. *)
Definition dq : string :=
  String (Ascii.Ascii false true false false false true false false) EmptyString.

Definition ID : string := "ai-assistant-ui".
Definition SEND_BUTTON_CLASS : string := "sendButton".

Definition SEND_ICON : string :=
  ("<svg viewBox=" ++ dq ++ "0 0 24 24" ++ dq ++ " width=" ++ dq ++ "24" ++ dq
   ++ " height=" ++ dq ++ "24" ++ dq ++ " fill=" ++ dq ++ "white" ++ dq
   ++ "><path d=" ++ dq ++ "M2,21L23,12L2,3V10L17,12L2,14V21Z" ++ dq
   ++ "></path></svg>")%string.

Definition STOP_ICON : string :=
  ("<svg viewBox=" ++ dq ++ "0 0 24 24" ++ dq ++ " width=" ++ dq ++ "24" ++ dq
   ++ " height=" ++ dq ++ "24" ++ dq ++ " fill=" ++ dq ++ "white" ++ dq
   ++ "><rect x=" ++ dq ++ "4" ++ dq ++ " y=" ++ dq ++ "4" ++ dq
   ++ " width=" ++ dq ++ "16" ++ dq ++ " height=" ++ dq ++ "16" ++ dq
   ++ "></rect></svg>")%string.

(** The text the chat box opens with. *)
Definition greeting : string :=
  "I can answer questions about the diagram, apply changes, such as creating, deleting, renaming,
            or moving elements, and I can help you with validation errors. How can I help you today?".

(** The actions of [./actions], as the widget creates and recognises them;
    [OtherAction] stands for every action that is not a response. *)
Inductive Action : Type :=
| AiAssistantRequestAction (message : string)
| AiAssistantCancelAction
| AiAssistantResponseAction (message : string)
| OtherAction (kind : string).

(** The markup [addMessage] appends to the chat box: the template literal
    with the label and the rendered text put in as they are. *)
Definition message_markup (userName rendered : string) : string :=
  ("
            <div class=" ++ dq ++ "message" ++ dq ++ ">
                <h3 class=" ++ dq ++ userName ++ " message-label" ++ dq ++ ">"
   ++ userName ++ "</h3>
                " ++ rendered ++ "
            </div>
        ")%string.

(** The widget with the part of the page it touches.  [chatBox_innerHTML]
    is the markup of the chat box as the assignments to [innerHTML] build
    it.  [dispatched] lists the actions handed to the action dispatcher
    (newest first), [pending] counts the requests whose promise has not
    settled. *)
Record Widget : Type := mkWidget {
  messageInput_value : string;
  sendButton_innerHTML : string;
  sendButton_className : string;
  containerElement_classList : list string;
  chatBox_innerHTML : string;
  isWaitingForResponse : bool;
  dispatched : list Action;
  pending : nat
}.

(** [classList.add] and [classList.remove] of a [DOMTokenList]. *)
Definition classList_add (token : string) (l : list string) : list string :=
  if existsb (String.eqb token) l then l else (l ++ [token])%list.

Definition classList_remove (token : string) (l : list string) : list string :=
  filter (fun c => negb (String.eqb token c)) l.

Section Methods.

Variable trim : string -> string.
Variable makeHtml : string -> string.

Definition id : string := ID.
Definition containerClass : string := ID.

Definition messageToHtml (message : string) : string := makeHtml message.

Definition addMessage (userName message : string) (ui : Widget) : Widget :=
  {| messageInput_value := messageInput_value ui;
     sendButton_innerHTML := sendButton_innerHTML ui;
     sendButton_className := sendButton_className ui;
     containerElement_classList := containerElement_classList ui;
     chatBox_innerHTML :=
       (chatBox_innerHTML ui
        ++ message_markup userName (messageToHtml message))%string;
     isWaitingForResponse := isWaitingForResponse ui;
     dispatched := dispatched ui;
     pending := pending ui |}.

Definition addAssistantMessage (message : string) : Widget -> Widget :=
  addMessage "Assistant" message.

Definition addUserMessage (message : string) : Widget -> Widget :=
  addMessage "You" message.

Definition setWaiting (ui : Widget) : Widget :=
  {| messageInput_value := messageInput_value ui;
     sendButton_innerHTML := STOP_ICON;
     sendButton_className := (SEND_BUTTON_CLASS ++ " waiting")%string;
     containerElement_classList :=
       classList_add "loading" (containerElement_classList ui);
     chatBox_innerHTML := chatBox_innerHTML ui;
     isWaitingForResponse := true;
     dispatched := dispatched ui;
     pending := pending ui |}.

Definition unsetWaiting (ui : Widget) : Widget :=
  {| messageInput_value := messageInput_value ui;
     sendButton_innerHTML := SEND_ICON;
     sendButton_className := SEND_BUTTON_CLASS;
     containerElement_classList :=
       classList_remove "loading" (containerElement_classList ui);
     chatBox_innerHTML := chatBox_innerHTML ui;
     isWaitingForResponse := false;
     dispatched := dispatched ui;
     pending := pending ui |}.

(** [actionDispatcher.dispatch(action)] *)
Definition dispatch (action : Action) (ui : Widget) : Widget :=
  {| messageInput_value := messageInput_value ui;
     sendButton_innerHTML := sendButton_innerHTML ui;
     sendButton_className := sendButton_className ui;
     containerElement_classList := containerElement_classList ui;
     chatBox_innerHTML := chatBox_innerHTML ui;
     isWaitingForResponse := isWaitingForResponse ui;
     dispatched := action :: dispatched ui;
     pending := pending ui |}.

(** [actionDispatcher.request(action)]: the action is dispatched and a
    promise for its response is open. *)
Definition request (action : Action) (ui : Widget) : Widget :=
  {| messageInput_value := messageInput_value ui;
     sendButton_innerHTML := sendButton_innerHTML ui;
     sendButton_className := sendButton_className ui;
     containerElement_classList := containerElement_classList ui;
     chatBox_innerHTML := chatBox_innerHTML ui;
     isWaitingForResponse := isWaitingForResponse ui;
     dispatched := action :: dispatched ui;
     pending := S (pending ui) |}.

Definition set_messageInput_value (value : string) (ui : Widget) : Widget :=
  {| messageInput_value := value;
     sendButton_innerHTML := sendButton_innerHTML ui;
     sendButton_className := sendButton_className ui;
     containerElement_classList := containerElement_classList ui;
     chatBox_innerHTML := chatBox_innerHTML ui;
     isWaitingForResponse := isWaitingForResponse ui;
     dispatched := dispatched ui;
     pending := pending ui |}.

Definition cancelRequest (ui : Widget) : Widget :=
  unsetWaiting (dispatch AiAssistantCancelAction ui).

Definition sendMessageToAssistant (ui : Widget) : Widget :=
  let message := trim (messageInput_value ui) in
  if String.eqb message ""
  then ui
  else
    let ui1 := set_messageInput_value "" ui in
    let ui2 := addUserMessage message ui1 in
    let ui3 := setWaiting ui2 in
    request (AiAssistantRequestAction message) ui3.

Definition handleButtonClick (ui : Widget) : Widget :=
  if isWaitingForResponse ui
  then cancelRequest ui
  else sendMessageToAssistant ui.

(** The [keydown] listener of the input. *)
Definition onKeydown (key : string) (ui : Widget) : Widget :=
  if String.eqb key "Enter" then sendMessageToAssistant ui else ui.

(** The two callbacks of [request(...).then(...)]; a promise settles only if
    one is open. *)
Definition requestFulfilled (result_message : string) (ui : Widget) : Widget :=
  match pending ui with
  | O => ui
  | S open =>
      let ui1 := addAssistantMessage result_message ui in
      let ui2 := unsetWaiting ui1 in
      {| messageInput_value := messageInput_value ui2;
         sendButton_innerHTML := sendButton_innerHTML ui2;
         sendButton_className := sendButton_className ui2;
         containerElement_classList := containerElement_classList ui2;
         chatBox_innerHTML := chatBox_innerHTML ui2;
         isWaitingForResponse := isWaitingForResponse ui2;
         dispatched := dispatched ui2;
         pending := open |}
  end.

Definition requestRejected (reason : string) (ui : Widget) : Widget :=
  requestFulfilled reason ui.

Definition handle (action : Action) (ui : Widget) : Widget :=
  match action with
  | AiAssistantResponseAction message => addAssistantMessage message ui
  | _ => ui
  end.

(** [initializeContents(containerElement)], for a container with the given
    classes. *)
Definition initializeContents (classes : list string) : Widget :=
  addAssistantMessage greeting
    {| messageInput_value := "";
       sendButton_innerHTML := SEND_ICON;
       sendButton_className := SEND_BUTTON_CLASS;
       containerElement_classList := classes;
       chatBox_innerHTML := "";
       isWaitingForResponse := false;
       dispatched := [];
       pending := 0 |}.

(** What happens to the widget. *)
Inductive UiEvent : Type :=
| Typed (value : string)
| Click
| Keydown (key : string)
| Handle (action : Action)
| ResponseArrives (result_message : string)
| RequestFails (reason : string).

Definition react (ui : Widget) (ev : UiEvent) : Widget :=
  match ev with
  | Typed value => set_messageInput_value value ui
  | Click => handleButtonClick ui
  | Keydown key => onKeydown key ui
  | Handle action => handle action ui
  | ResponseArrives result_message => requestFulfilled result_message ui
  | RequestFails reason => requestRejected reason ui
  end.

Definition session (classes : list string) (evs : list UiEvent) : Widget :=
  fold_left react evs (initializeContents classes).

End Methods.

(** The messages of the requests dispatched, oldest first. *)
Definition requested (ui : Widget) : list string :=
  flat_map (fun a => match a with
                     | AiAssistantRequestAction message => [message]
                     | _ => []
                     end)
           (rev (dispatched ui)).

Definition cancels (ui : Widget) : nat :=
  List.length (filter (fun a => match a with
                                | AiAssistantCancelAction => true
                                | _ => false
                                end)
                      (dispatched ui)).

(** Flag, button and container agree on whether a response is awaited. *)
Definition in_sync (ui : Widget) : Prop :=
  if isWaitingForResponse ui
  then sendButton_innerHTML ui = STOP_ICON
       /\ sendButton_className ui = "sendButton waiting"%string
       /\ In "loading"%string (containerElement_classList ui)
  else sendButton_innerHTML ui = SEND_ICON
       /\ sendButton_className ui = "sendButton"%string
       /\ ~ In "loading"%string (containerElement_classList ui).

(** What the dispatcher has seen: no request is blank, and no more
    requests were cancelled than were sent. *)
Definition widget_record (trim : string -> string) (ui : Widget) : Prop :=
  Forall (fun message =>
            message <> ""%string /\ exists value, message = trim value)
         (requested ui)
  /\ (cancels ui + (if isWaitingForResponse ui then 1 else 0)
       <= List.length (requested ui))%nat.

End AiAssistantUi.

(** The error of the first handler of the snapshot that throws, if any. *)
Fixpoint first_failure (behaviour : Behaviour) (message : ActionMessage)
    (snapshot : list ActionMessageHandler) : option Error :=
  match snapshot with
  | [] => None
  | handler :: rest =>
      match completion (behaviour handler message) with
      | Throws e => Some e
      | Returns _ => first_failure behaviour message rest
      end
  end.

(** * Properties *)

(** ** Facts about the handler array *)

Lemma existsb_eqb_In (value : ActionMessageHandler) (array : list ActionMessageHandler) :
  existsb (Nat.eqb value) array = true <-> In value array.
Proof.
  rewrite existsb_exists. split.
  - intros [x [Hin Heq]]. apply Nat.eqb_eq in Heq. now subst.
  - intros Hin. exists value. split; [assumption | apply Nat.eqb_refl].
Qed.

Lemma distinctAdd_present array value :
  In value array -> distinctAdd array value = array.
Proof.
  intros Hin. unfold distinctAdd.
  apply existsb_eqb_In in Hin. now rewrite Hin.
Qed.

Lemma distinctAdd_absent array value :
  ~ In value array -> distinctAdd array value = (array ++ [value])%list.
Proof.
  intros Hnin. unfold distinctAdd.
  destruct (existsb (Nat.eqb value) array) eqn:E; [|reflexivity].
  apply existsb_eqb_In in E. contradiction.
Qed.

Lemma In_distinctAdd array value x :
  In x (distinctAdd array value) <-> In x array \/ x = value.
Proof.
  unfold distinctAdd.
  destruct (existsb (Nat.eqb value) array) eqn:E.
  - apply existsb_eqb_In in E. split; [tauto|]. intros [H | ->]; assumption.
  - rewrite in_app_iff. simpl. intuition congruence.
Qed.

Lemma NoDup_distinctAdd array value :
  NoDup array -> NoDup (distinctAdd array value).
Proof.
  intros Hnd. unfold distinctAdd.
  destruct (existsb (Nat.eqb value) array) eqn:E; [assumption|].
  assert (Hnin : ~ In value array).
  { intros Hin. apply existsb_eqb_In in Hin. congruence. }
  clear E. induction Hnd as [|x l Hx Hl IH]; simpl.
  - constructor; [intros [] | constructor].
  - constructor.
    + rewrite in_app_iff. simpl. intros [H | [H | []]]; [tauto|].
      subst. apply Hnin. now left.
    + apply IH. intros H. apply Hnin. now right.
Qed.

Lemma In_remove array value x :
  In x (remove array value) -> In x array.
Proof.
  induction array as [|y l IH]; simpl; [tauto|].
  destruct (Nat.eqb value y); simpl; intuition.
Qed.

Lemma In_remove_other array value x :
  x <> value -> In x array -> In x (remove array value).
Proof.
  intros Hne. induction array as [|y l IH]; simpl; [tauto|].
  intros [-> | Hin].
  - destruct (Nat.eqb value x) eqn:E.
    + apply Nat.eqb_eq in E. congruence.
    + now left.
  - destruct (Nat.eqb value y); [assumption | right; auto].
Qed.

Lemma NoDup_remove array value :
  NoDup array -> NoDup (remove array value).
Proof.
  induction 1 as [|y l Hy Hl IH]; simpl; [constructor|].
  destruct (Nat.eqb value y); [assumption|].
  constructor; [|assumption].
  intros H. apply Hy. eapply In_remove; eassumption.
Qed.

Lemma remove_NoDup_gone array value :
  NoDup array -> ~ In value (remove array value).
Proof.
  induction 1 as [|y l Hy Hl IH]; simpl; [tauto|].
  destruct (Nat.eqb value y) eqn:E.
  - apply Nat.eqb_eq in E. now subst.
  - simpl. intros [H | H]; [|contradiction].
    subst. now rewrite Nat.eqb_refl in E.
Qed.

Lemma remove_absent array value :
  ~ In value array -> remove array value = array.
Proof.
  induction array as [|y l IH]; simpl; [reflexivity|].
  intros Hnin. destruct (Nat.eqb value y) eqn:E.
  - apply Nat.eqb_eq in E. subst. tauto.
  - f_equal. apply IH. tauto.
Qed.

Lemma NoDup_registry_steps cs array :
  NoDup array -> NoDup (fold_left registry_step cs array).
Proof.
  revert array. induction cs as [|c cs IH]; simpl; intros array Hnd; [assumption|].
  apply IH. destruct c; simpl; auto using NoDup_distinctAdd, NoDup_remove.
Qed.

Lemma assign_handlers_same (w : World) :
  assign_actionMessageHandlers (actionMessageHandlers w) w = w.
Proof. destruct w as [[] ? ? ? ? ? ?]; reflexivity. Qed.

Lemma assign_handlers_twice hs hs' (w : World) :
  assign_actionMessageHandlers hs (assign_actionMessageHandlers hs' w)
  = assign_actionMessageHandlers hs w.
Proof. reflexivity. Qed.

Lemma apply_calls_handlers cs (w : World) :
  fold_left apply_call cs w
  = assign_actionMessageHandlers
      (fold_left registry_step cs (actionMessageHandlers w)) w.
Proof.
  revert w. induction cs as [|c cs IH]; intros w; simpl.
  - symmetry. apply assign_handlers_same.
  - rewrite IH. destruct c; reflexivity.
Qed.

Lemma forEach_spec behaviour message snapshot :
  forall (w : World) delivered,
    let '(w1, delivered1, _) := forEach behaviour message snapshot w delivered in
    w1 = assign_actionMessageHandlers
           (fold_left registry_step (dispatch_calls behaviour message snapshot)
                      (actionMessageHandlers w)) w
    /\ delivered1
       = (delivered
          ++ map (fun h => (h, message))
                 (invoked_handlers behaviour message snapshot))%list.
Proof.
  unfold dispatch_calls.
  induction snapshot as [|h rest IH]; intros w delivered; simpl.
  - split; [symmetry; apply assign_handlers_same | now rewrite app_nil_r].
  - destruct (completion (behaviour h message)) eqn:E; simpl.
    + specialize (IH (fold_left apply_call (registry_calls (behaviour h message)) w)
                     (delivered ++ [(h, message)])%list).
      destruct (forEach behaviour message rest _ _) as [[w1 d1] r].
      destruct IH as [-> ->]. split.
      * rewrite apply_calls_handlers. simpl. now rewrite fold_left_app.
      * now rewrite <- app_assoc.
    + split.
      * rewrite app_nil_r. apply apply_calls_handlers.
      * reflexivity.
Qed.

(** ** Preservation of the invariants *)

Ltac open_world w :=
  destruct w as [[?id ?st ?sv ?sd ?started ?stopped ?ms ?hs] ?now ?tm ?tp ?rc ?cl ?hi].

Ltac open_consistent H :=
  destruct H as [?Hrace ?Hgate ?Hstopped ?HonStop ?Hnd ?Hhead ?Hhist];
  unfold race_shape in *; simpl in *.

Ltac shape_cases :=
  repeat match goal with
         | H : _ /\ _ |- _ => destruct H
         | H : exists _, _ |- _ => destruct H
         | H : _ \/ _ |- _ => destruct H
         end;
  subst; try discriminate;
  repeat match goal with
         | H : Some _ = Some _ |- _ => injection H as H; subst
         end.

Ltac shape_done :=
  simpl; auto;
  try (left; eexists; repeat split; eauto; fail);
  try (right; repeat split; auto; fail);
  try (repeat split; eauto; fail).

Lemma history_extend st to hi :
  hd_error hi = Some st -> follows assignment hi -> assignment st to = true ->
  follows assignment (to :: hi).
Proof.
  intros Hhead Hhist Hedge. destruct hi as [|from rest]; simpl in *; [exact I|].
  injection Hhead as ->. split; assumption.
Qed.

(** One field of [consistent], by the shape of the goal. *)
Ltac field :=
  match goal with
  | |- NoDup _ => first [assumption | constructor]
  | |- hd_error _ = _ => first [reflexivity | assumption]
  | |- follows _ _ =>
      first [ assumption
            | exact I
            | eapply history_extend; [eassumption | assumption | reflexivity]
            | eapply history_extend; [reflexivity | | reflexivity];
              eapply history_extend; [eassumption | assumption | reflexivity] ]
  | |- _ =>
      unfold resolve, reject, settle; simpl;
      match goal with
      | |- forall e, match ?d with _ => _ end <> Rejected e =>
          intros ?e; destruct d; first [discriminate | auto]
      | |- forall e, _ <> Rejected e => first [assumption | intros; discriminate]
      | |- _ -> match ?d with _ => _ end = Fulfilled tt =>
          intros _; destruct d as [|[]|?e];
          first [ reflexivity
                | exfalso;
                  match goal with
                  | H : forall e, Rejected _ <> Rejected e |- _ =>
                      eapply H; reflexivity
                  end ]
      | |- _ -> _ = Fulfilled tt => first [assumption | intros; discriminate]
      | |- match ?rc with _ => _ end => destruct rc; shape_cases; shape_done
      | |- _ => shape_cases; shape_done
      end
  end.

Ltac fields := constructor; unfold race_shape; field.

Lemma consistent_constructor id : consistent (constructor id).
Proof. fields. Qed.

Lemma consistent_start w : consistent w -> consistent (fst (start w)).
Proof.
  intros H. open_world w. open_consistent H. unfold start. simpl.
  destruct st; simpl; try (constructor; simpl; assumption).
  destruct rc; shape_cases. fields.
Qed.

Lemma consistent_configureServer server w :
  consistent w -> consistent (fst (configureServer server w)).
Proof.
  intros H. open_world w. open_consistent H. unfold configureServer. simpl.
  destruct st; simpl; try (constructor; simpl; assumption); fields.
Qed.

Lemma consistent_stop w : consistent w -> consistent (fst (stop w)).
Proof.
  intros H. open_world w. open_consistent H. unfold stop. simpl.
  destruct st; simpl; try (constructor; simpl; assumption);
    destruct sv as [server|]; simpl; fields.
Qed.

Lemma consistent_runMicrotasks w : consistent w -> consistent (runMicrotasks w).
Proof.
  intros H. open_world w. open_consistent H. unfold runMicrotasks. simpl.
  destruct rc; simpl; try (constructor; simpl; assumption).
  destruct Hrace as (Hst & -> & -> & -> & [due ->]).
  destruct sd as [|server|e]; simpl.
  - fields.
  - destruct Hst; subst; fields.
  - exfalso. eapply Hgate. reflexivity.
Qed.

Lemma consistent_fireTimer w :
  consistent w -> race w <> Armed -> consistent (fireTimer w).
Proof.
  intros H Hne. open_world w. open_consistent H. unfold fireTimer. simpl.
  destruct tm as [due|]; simpl; [|constructor; simpl; assumption].
  destruct (due <=? now); simpl; [|constructor; simpl; assumption].
  destruct rc; [| congruence |]; shape_cases; fields.
Qed.

Lemma consistent_advance ms w : consistent w -> consistent (advance ms w).
Proof.
  intros H. open_world w. open_consistent H.
  constructor; unfold race_shape; simpl; assumption.
Qed.

Lemma consistent_elapse ms w : consistent w -> consistent (elapse ms w).
Proof.
  intros H. unfold elapse.
  apply consistent_runMicrotasks in H.
  apply (consistent_advance ms) in H.
  set (w1 := advance ms (runMicrotasks w)) in *.
  destruct (race w1) eqn:Hrc.
  - apply consistent_runMicrotasks, consistent_fireTimer; [assumption | congruence].
  - clearbody w1. open_world w1. open_consistent H. subst rc.
    destruct Hrace as (Hst & -> & -> & -> & [due ->]).
    unfold fireTimer. simpl.
    destruct (due <=? now) eqn:Hdue; unfold runMicrotasks; simpl;
      (destruct sd as [|server|e]; simpl;
       [ | | exfalso; eapply Hgate; reflexivity ]);
      destruct Hst; subst; fields.
  - apply consistent_runMicrotasks, consistent_fireTimer; [assumption | congruence].
Qed.

Lemma consistent_record_call c w : consistent w -> consistent (record_call c w).
Proof.
  intros H. open_world w. open_consistent H.
  constructor; unfold race_shape; simpl; assumption.
Qed.

Lemma consistent_handlers_assigned hs w :
  consistent w -> NoDup hs -> consistent (assign_actionMessageHandlers hs w).
Proof.
  intros H Hnd'. open_world w. open_consistent H.
  constructor; unfold race_shape; simpl; assumption.
Qed.

Lemma consistent_setStartupTimeout ms w :
  consistent w -> consistent (setStartupTimeout ms w).
Proof.
  intros H. open_world w. open_consistent H.
  constructor; unfold race_shape; simpl; assumption.
Qed.

Lemma consistent_onActionMessage handler w :
  consistent w -> consistent (fst (onActionMessage handler w)).
Proof.
  intros H. apply consistent_handlers_assigned; [assumption|].
  apply NoDup_distinctAdd, H.
Qed.

Lemma consistent_dispose d w : consistent w -> consistent (dispose d w).
Proof.
  intros H. apply consistent_handlers_assigned; [assumption|].
  apply NoDup_remove, H.
Qed.

Lemma proxy_process_after behaviour message w :
  after (proxy_process behaviour message w)
  = assign_actionMessageHandlers
      (fold_left registry_step
         (dispatch_calls behaviour message (actionMessageHandlers w))
         (actionMessageHandlers w)) w.
Proof.
  unfold proxy_process.
  destruct (actionMessageHandlers w) as [|h rest] eqn:Hhs.
  - simpl. rewrite <- Hhs. symmetry. apply assign_handlers_same.
  - cbn [List.length Nat.eqb].
    pose proof (forEach_spec behaviour message (h :: rest) w []) as Hspec.
    destruct (forEach behaviour message (h :: rest) w []) as [[w1 d1] r].
    destruct Hspec as [-> _]. simpl after. now rewrite Hhs.
Qed.

Lemma proxy_process_invoked behaviour message w :
  invoked (proxy_process behaviour message w)
  = map (fun h => (h, message))
        (invoked_handlers behaviour message (actionMessageHandlers w)).
Proof.
  unfold proxy_process.
  destruct (actionMessageHandlers w) as [|h rest] eqn:Hhs.
  - reflexivity.
  - cbn [List.length Nat.eqb].
    pose proof (forEach_spec behaviour message (h :: rest) w []) as Hspec.
    destruct (forEach behaviour message (h :: rest) w []) as [[w1 d1] r].
    destruct Hspec as [_ ->]. reflexivity.
Qed.

Lemma consistent_proxy_process behaviour message w :
  consistent w -> consistent (after (proxy_process behaviour message w)).
Proof.
  intros H. rewrite proxy_process_after.
  apply consistent_handlers_assigned; [assumption|].
  apply NoDup_registry_steps, H.
Qed.

Lemma consistent_checked {T : Type}
    (method : GLSPServer -> World * Completion T) w :
  consistent w ->
  (forall server, exists c r, method server = (record_call c w, r)) ->
  consistent
    (fst match checkedServer w with
         | Throws e => (w, Throws e)
         | Returns server => method server
         end).
Proof.
  intros H Hm. destruct (checkedServer w) as [server|e]; [|assumption].
  destruct (Hm server) as (c & r & ->). now apply consistent_record_call.
Qed.

Lemma consistent_step ev w : consistent w -> consistent (step ev w).
Proof.
  intros H. destruct ev; simpl.
  - now apply consistent_start.
  - now apply consistent_configureServer.
  - now apply consistent_stop.
  - now apply consistent_setStartupTimeout.
  - unfold initializeServer. apply consistent_checked; eauto.
  - unfold initializeClientSession. apply consistent_checked; eauto.
  - unfold disposeClientSession. apply consistent_checked; eauto.
  - unfold shutdownServer. apply consistent_checked; eauto.
  - unfold sendActionMessage. apply consistent_checked; eauto.
  - now apply consistent_onActionMessage.
  - now apply consistent_dispose.
  - now apply consistent_proxy_process.
  - now apply consistent_runMicrotasks.
  - now apply consistent_elapse.
Qed.

Lemma reachable_consistent w : reachable w -> consistent w.
Proof.
  induction 1 as [id|ev w _ IH].
  - apply consistent_constructor.
  - now apply consistent_step.
Qed.

Lemma reachable_exec evs w : reachable w -> reachable (exec evs w).
Proof.
  revert w. induction evs as [|ev evs IH]; intros w H; simpl; [assumption|].
  apply IH. now constructor.
Qed.

(** ** The lifecycle graph *)

(** Every assignment to [state] a session makes is an edge of the lifecycle
    graph or one of the two late reactions of the race. *)
Lemma reachable_history w : reachable w -> follows assignment (history w).
Proof. intros H. apply reachable_consistent in H. apply H. Qed.

(** At the end of every call the state is not [Stopping]: [stop()] passes
    through it within one call. *)
Lemma reachable_not_stopping w : reachable w -> state w <> Stopping.
Proof.
  intros H. apply reachable_consistent in H.
  open_world w. open_consistent H.
  destruct rc; shape_cases; discriminate.
Qed.

(** C1 (where the code departs from the specification).  [start()], then
    [stop()], then [configureServer(server)] in one task: [stop()] leaves
    the race of [start()] open, so at the end of the task its reaction
    stores the server and assigns [Running] to a client whose state is
    [Stopped].  That assignment is not an edge of the lifecycle graph. *)
Theorem C1_stopped_client_becomes_running :
  let w := exec [Start; Stop; ConfigureServer quiet_server] (constructor "client") in
  state w = Stopped
  /\ state (step EndOfTask w) = Running
  /\ history (step EndOfTask w) = [Running; Stopped; Stopping; Starting; Initial]
  /\ transition Stopped Running = false
  /\ ~ follows transition (history (step EndOfTask w)).
Proof.
  cbv zeta. repeat split.
  simpl. intros [H _]. discriminate H.
Qed.

(** The same race lost to the timer: a stopped client becomes
    [StartFailed]. *)
Lemma stopped_client_becomes_start_failed :
  let w := exec [Start; Stop] (constructor "client") in
  state w = Stopped /\ state (step (Elapse 1500) w) = StartFailed.
Proof. split; reflexivity. Qed.

(** ** stop *)


Lemma stop_effect w :
  stop_takes_effect w = true ->
  let '(w', signal) := stop w in
  state w' = Stopped
  /\ onStopDeferred w' = resolve (onStopDeferred w) tt
  /\ _server w' = _server w
  /\ signal = AsyncResult (first_stop_outcome w)
  /\ shutdown_count w' = (shutdowns_by_stop w + shutdown_count w)%nat
  /\ history w' = Stopped :: Stopping :: history w.
Proof.
  unfold first_stop_outcome, shutdowns_by_stop, stop_takes_effect, stop, shutdown_count.
  open_world w. simpl.
  destruct st; try discriminate; intros _;
    destruct sv as [server|]; simpl;
    try destruct (Server.shutdown server); repeat split.
Qed.

Lemma resolve_not_rejected (d : Deferred unit) :
  (forall e, d <> Rejected e) -> resolve d tt = Fulfilled tt.
Proof.
  intros H. destruct d as [|[]|e]; try reflexivity.
  exfalso. eapply H. reflexivity.
Qed.




(** C2 (as the code has it).  The first [stop()] of a client bound to a
    server whose [shutdown()] throws [e] asks the server to shut down once,
    leaves the state [Stopped] and the stopped signal resolved, and returns a
    promise rejected with [e]: the [finally] block runs and the error goes to
    the caller. *)
Theorem C2_stop_with_failing_shutdown w server e :
  reachable w ->
  state w <> Stopped ->
  _server w = Some server ->
  Server.shutdown server = Throws e ->
  let '(w', signal) := stop w in
  outcome w' signal = Rejected e
  /\ state w' = Stopped
  /\ outcome w' (onStop w') = Fulfilled tt
  /\ shutdown_count w' = S (shutdown_count w)
  /\ history w' = Stopped :: Stopping :: history w.
Proof.
  intros Hr Hne Hsv Hthrow.
  assert (Heff : stop_takes_effect w = true).
  { pose proof (reachable_not_stopping w Hr) as Hns.
    unfold stop_takes_effect. destruct (state w); congruence. }
  pose proof (stop_effect w Heff) as H.
  destruct (stop w) as [w' signal].
  destruct H as (Hst & Hstop & _ & -> & Hcount & Hhist).
  unfold first_stop_outcome, shutdowns_by_stop in *.
  rewrite Heff, Hsv in *. rewrite Hthrow. simpl.
  repeat split; try assumption.
  rewrite Hstop. apply resolve_not_rejected.
  apply reachable_consistent in Hr. apply Hr.
Qed.

Lemma reachable_running_with server : reachable (running_with server).
Proof. apply reachable_exec. constructor. Qed.

Lemma C2_witness :
  let '(w', signal) := stop (running_with (failing_shutdown_server "down")) in
  outcome w' signal = Rejected "down"%string
  /\ state w' = Stopped
  /\ outcome w' (onStop w') = Fulfilled tt
  /\ shutdown_count w' = S (shutdown_count (running_with (failing_shutdown_server "down")))
  /\ history w' = Stopped :: Stopping :: history (running_with (failing_shutdown_server "down")).
Proof.
  apply (C2_stop_with_failing_shutdown
           (running_with (failing_shutdown_server "down"))
           (failing_shutdown_server "down") "down"%string).
  - apply reachable_running_with.
  - simpl. discriminate.
  - reflexivity.
  - reflexivity.
Defined.

(** C2 as the specification states it fails: with a server whose
    [shutdown()] throws, the promise the first [stop()] returns is rejected,
    not resolved. *)
Lemma C2_counterexample :
  ~ (forall w server e,
        reachable w ->
        state w = Running ->
        _server w = Some server ->
        Server.shutdown server = Throws e ->
        outcome (fst (stop w)) (snd (stop w)) = Fulfilled tt).
Proof.
  intros H.
  specialize (H (running_with (failing_shutdown_server "down"))
                (failing_shutdown_server "down") "down"%string
                (reachable_running_with _) eq_refl eq_refl eq_refl).
  discriminate H.
Qed.




(** ** start *)

(** C4.  [start()] outside [Initial] changes nothing and returns the started
    signal.  In [Initial] it assigns [Starting] and opens the race against a
    timer due after the delay [setTimeout] makes of [startupTimeout].  While
    that race is open: (a) once the server deferred is resolved, the end of
    the task stores the server, assigns [Running] and resolves the started
    signal; (b) while it is still pending, the timer coming due assigns
    [StartFailed] and rejects the started signal with the startup error. *)
Theorem C4_start w :
  reachable w ->
  (state w <> Initial -> start w = (w, onStart w))
  /\ (state w = Initial ->
      let '(w1, signal) := start w in
      signal = onStart w1
      /\ state w1 = Starting
      /\ race w1 = Armed
      /\ timer w1 = Some (clock w + setTimeout_delay (startupTimeout w))
      /\ outcome w1 signal = Pending)
  /\ (race w = Armed ->
      forall server, serverDeferred w = Fulfilled server ->
      let w' := runMicrotasks w in
      _server w' = Some server
      /\ state w' = Running
      /\ outcome w' (onStart w') = Fulfilled tt)
  /\ (race w = Armed ->
      serverDeferred w = Pending ->
      forall due ms, timer w = Some due -> due <= clock w + Z.max 0 ms ->
      let w' := elapse ms w in
      _server w' = None
      /\ state w' = StartFailed
      /\ outcome w' (onStart w') = Rejected startup_timeout_error).
Proof.
  intros Hr. apply reachable_consistent in Hr.
  open_world w. open_consistent Hr.
  split; [|split; [|split]].
  - intros Hne. unfold start. simpl. destruct st; first [reflexivity | congruence].
  - intros ->. unfold start. simpl.
    destruct rc; shape_cases. repeat split.
  - intros -> server ->. shape_cases; unfold runMicrotasks; simpl; repeat split.
  - intros -> -> due ms0 -> Hdue. apply Z.leb_le in Hdue.
    shape_cases; unfold elapse, runMicrotasks, fireTimer, advance; simpl;
      rewrite Hdue; repeat split.
Qed.

Lemma C4_witness :
  start (running_with quiet_server) = (running_with quiet_server, OnStartPromise)
  /\ (let '(w1, signal) := start (constructor "client") in
      signal = onStart w1
      /\ state w1 = Starting
      /\ race w1 = Armed
      /\ timer w1 = Some 1500
      /\ outcome w1 signal = Pending)
  /\ (let w' := runMicrotasks
                  (exec [Start; ConfigureServer quiet_server] (constructor "client")) in
      _server w' = Some quiet_server
      /\ state w' = Running
      /\ outcome w' (onStart w') = Fulfilled tt)
  /\ (let w' := elapse 50 (exec [SetStartupTimeout 50; Start] (constructor "client")) in
      _server w' = None
      /\ state w' = StartFailed
      /\ outcome w' (onStart w') = Rejected startup_timeout_error).
Proof.
  split; [|split; [|split]].
  - apply (proj1 (C4_start (running_with quiet_server)
                           (reachable_running_with quiet_server))).
    simpl. discriminate.
  - apply (proj1 (proj2 (C4_start (constructor "client")
                                  (reachable_new "client")))).
    reflexivity.
  - apply (proj1 (proj2 (proj2
             (C4_start (exec [Start; ConfigureServer quiet_server] (constructor "client"))
                       (reachable_exec _ _ (reachable_new "client")))))).
    + reflexivity.
    + reflexivity.
  - apply (proj2 (proj2 (proj2
             (C4_start (exec [SetStartupTimeout 50; Start] (constructor "client"))
                       (reachable_exec _ _ (reachable_new "client"))))))
      with (due := 50).
    + reflexivity.
    + reflexivity.
    + reflexivity.
    + vm_compute. discriminate.
Defined.

(** The delay of the timer: [startupTimeout] itself from 1 up to
    [TIMEOUT_MAX], and 1 outside that range. *)
Lemma setTimeout_delay_spec ms :
  (1 <= ms <= TIMEOUT_MAX -> setTimeout_delay ms = ms)
  /\ (ms < 1 \/ TIMEOUT_MAX < ms -> setTimeout_delay ms = 1)
  /\ 1 <= setTimeout_delay ms <= TIMEOUT_MAX.
Proof.
  unfold setTimeout_delay, TIMEOUT_MAX.
  destruct (1 <=? ms) eqn:E1; destruct (ms <=? 2147483647) eqn:E2; simpl;
    try apply Z.leb_le in E1; try apply Z.leb_le in E2;
    try apply Z.leb_gt in E1; try apply Z.leb_gt in E2;
    repeat split; intros; lia.
Qed.

(** A timeout above [TIMEOUT_MAX] does not postpone the deadline: the start
    fails at the first turn of the timers, and a server attached after that
    is not stored. *)
Lemma oversized_timeout_fails_at_once :
  let w := exec [SetStartupTimeout 2147483648; Start; Elapse 20]
                (constructor "client") in
  state w = StartFailed
  /\ state (exec [ConfigureServer quiet_server; EndOfTask] w) = StartFailed.
Proof. vm_compute. split; reflexivity. Qed.

(** ** configureServer *)

(** Case analysis of one step on an opened world. *)
Ltac case_matches :=
  repeat match goal with
         | |- context [match ?x with _ => _ end] =>
             match x with
             | context [match _ with _ => _ end] => fail 1
             | _ => destruct x; simpl
             end
         end.

Ltac unfold_step :=
  unfold start, configureServer, stop, setStartupTimeout, initializeServer,
    initializeClientSession, disposeClientSession, shutdownServer,
    sendActionMessage, checkedServer, checkState, onActionMessage, dispose,
    elapse, advance;
  simpl;
  repeat (unfold runMicrotasks, fireTimer, thenCallback, catchCallback,
            promise_race, resolve, reject, settle;
          simpl; case_matches).

(** Once resolved, the server deferred keeps its value. *)
Lemma serverDeferred_step ev (w : World) first :
  serverDeferred w = Fulfilled first ->
  serverDeferred (step ev w) = Fulfilled first.
Proof.
  intros H. destruct ev; simpl; try rewrite proxy_process_after;
    open_world w; simpl in *; subst; unfold_step; reflexivity.
Qed.

Lemma serverDeferred_exec evs (w : World) first :
  serverDeferred w = Fulfilled first ->
  serverDeferred (exec evs w) = Fulfilled first.
Proof.
  revert w. induction evs as [|ev evs IH]; intros w H; simpl; [assumption|].
  apply IH. now apply serverDeferred_step.
Qed.

(** The server a client stores is the one its deferred was resolved with. *)
Lemma stored_server_is_attached (w : World) server :
  reachable w -> _server w = Some server -> serverDeferred w = Fulfilled server.
Proof.
  intros Hr Hsv. apply reachable_consistent in Hr.
  open_world w. open_consistent Hr. subst sv.
  destruct rc; shape_cases; reflexivity.
Qed.

Lemma start_failed_for_good_step ev w :
  start_failed_for_good w -> start_failed_for_good (step ev w).
Proof.
  unfold start_failed_for_good. intros (Hrc & Hsv & Hst).
  destruct ev; simpl; try rewrite proxy_process_after;
    open_world w; simpl in *; subst;
    destruct Hst; subst; unfold_step; auto.
Qed.

Lemma start_failed_for_good_exec evs w :
  start_failed_for_good w -> start_failed_for_good (exec evs w).
Proof.
  revert w. induction evs as [|ev evs IH]; intros w H; simpl; [assumption|].
  apply IH. now apply start_failed_for_good_step.
Qed.

Lemma start_failed_is_for_good w :
  reachable w -> state w = StartFailed -> start_failed_for_good w.
Proof.
  intros Hr Hst. apply reachable_consistent in Hr.
  open_world w. open_consistent Hr. subst st.
  unfold start_failed_for_good. simpl.
  destruct rc; shape_cases; auto.
Qed.

(** The race opened by [start()] stays open through every call made
    before the task ends: only the end of a task or the timer decides it. *)
Lemma open_race_survives_calls ev (w : World) :
  reachable w -> race w = Armed ->
  match ev with
  | EndOfTask | Elapse _ => True
  | _ => race (step ev w) = Armed
  end.
Proof.
  intros Hr Hrc.
  assert (Hst : state w <> Initial).
  { apply reachable_consistent in Hr. open_world w. open_consistent Hr.
    subst rc. shape_cases; discriminate. }
  clear Hr.
  destruct ev; simpl; try exact I; try rewrite proxy_process_after;
    open_world w; simpl in *; subst; unfold_step;
    first [reflexivity | congruence].
Qed.

Lemma configureServer_throws_iff server (w : World) :
  snd (configureServer server w) = Throws already_running_error
  <-> state w = Running.
Proof.
  open_world w. unfold configureServer. simpl.
  destruct st; simpl; split; intros H; first [reflexivity | discriminate].
Qed.

Lemma configureServer_returns server (w : World) :
  state w <> Running -> snd (configureServer server w) = Returns tt.
Proof.
  open_world w. unfold configureServer. simpl.
  destruct st; simpl; intros H; first [reflexivity | congruence].
Qed.

Lemma configureServer_frame server (w : World) :
  let w' := fst (configureServer server w) in
  state w' = state w
  /\ _server w' = _server w
  /\ onStartDeferred w' = onStartDeferred w
  /\ calls w' = calls w.
Proof.
  open_world w. unfold configureServer. simpl.
  destruct st; simpl; repeat split.
Qed.

Lemma configureServer_resolved server (w : World) first :
  serverDeferred w = Fulfilled first -> fst (configureServer server w) = w.
Proof.
  open_world w. unfold configureServer. simpl. intros ->.
  destruct st; reflexivity.
Qed.

Lemma configureServer_resolves server (w : World) :
  state w <> Running -> serverDeferred w = Pending ->
  serverDeferred (fst (configureServer server w)) = Fulfilled server.
Proof.
  open_world w. unfold configureServer. simpl. intros Hne ->.
  destruct st; simpl; first [reflexivity | congruence].
Qed.

(** C5.  [configureServer(server)] throws exactly when the state is
    [Running], and never changes the state.  A call that finds the server
    deferred resolved changes nothing; the value the deferred was first
    resolved with stays, and it is the only server the client ever stores.
    In state [StartFailed], hence after the timer won the race, the call
    returns, stores no server and leaves state and started signal as they
    are; whatever happens later, no server is stored and the state is
    [StartFailed] or, after [stop()], [Stopped]. *)
Theorem C5_configureServer w server :
  reachable w ->
  let w' := fst (configureServer server w) in
  let result := snd (configureServer server w) in
  (result = Throws already_running_error <-> state w = Running)
  /\ (state w <> Running -> result = Returns tt)
  /\ state w' = state w
  /\ (forall first, serverDeferred w = Fulfilled first -> w' = w)
  /\ (state w <> Running -> serverDeferred w = Pending ->
      serverDeferred w' = Fulfilled server)
  /\ (forall first, serverDeferred w' = Fulfilled first ->
      forall evs,
        serverDeferred (exec evs w') = Fulfilled first
        /\ forall bound, _server (exec evs w') = Some bound -> bound = first)
  /\ (state w = StartFailed ->
      result = Returns tt
      /\ state w' = StartFailed
      /\ _server w' = None
      /\ outcome w' (onStart w') = outcome w (onStart w)
      /\ calls w' = calls w
      /\ forall evs,
          _server (exec evs w') = None
          /\ (state (exec evs w') = StartFailed \/ state (exec evs w') = Stopped)).
Proof.
  intros Hr w' result.
  pose proof (reachable_step (ConfigureServer server) w Hr) as Hr'.
  change (step (ConfigureServer server) w) with w' in Hr'.
  destruct (configureServer_frame server w) as (Hst' & Hsv' & Hon' & Hcl').
  fold w' in Hst', Hsv', Hon', Hcl'.
  split; [|split; [|split; [|split; [|split; [|split]]]]].
  - apply configureServer_throws_iff.
  - apply configureServer_returns.
  - exact Hst'.
  - apply configureServer_resolved.
  - apply configureServer_resolves.
  - intros first Hfirst evs. split.
    + now apply serverDeferred_exec.
    + intros bound Hbound.
      pose proof (reachable_exec evs w' Hr') as Hre.
      apply (stored_server_is_attached _ _ Hre) in Hbound.
      rewrite (serverDeferred_exec evs w' first Hfirst) in Hbound.
      now injection Hbound.
  - intros Hst.
    pose proof (start_failed_is_for_good w Hr Hst) as Hgood.
    assert (Hgood' : start_failed_for_good w').
    { apply (start_failed_for_good_step (ConfigureServer server)). exact Hgood. }
    destruct Hgood as (_ & Hsv & _).
    split; [|split; [|split; [|split; [|split]]]].
    + apply configureServer_returns. congruence.
    + congruence.
    + congruence.
    + exact Hon'.
    + exact Hcl'.
    + intros evs. apply (start_failed_for_good_exec evs _ Hgood').
Qed.

Lemma C5_witness :
  let w := exec [Start; Elapse 1500] (constructor "client") in
  let w' := fst (configureServer quiet_server w) in
  state w = StartFailed
  /\ snd (configureServer quiet_server w) = Returns tt
  /\ state w' = StartFailed
  /\ _server w' = None
  /\ forall evs,
      _server (exec evs w') = None
      /\ (state (exec evs w') = StartFailed \/ state (exec evs w') = Stopped).
Proof.
  intros w w'.
  assert (Hst : state w = StartFailed) by (vm_compute; reflexivity).
  pose proof (C5_configureServer w quiet_server
                (reachable_exec _ _ (reachable_new "client"))) as H.
  destruct H as (_ & _ & _ & _ & _ & _ & H).
  destruct (H Hst) as (Hres & Hst' & Hsv & _ & _ & Hlater).
  repeat split; try assumption; apply Hlater.
Defined.

(** ** Checked access *)

Lemma error_messages_distinct i j : not_running_error i <> no_server_error j.
Proof. unfold not_running_error, no_server_error. simpl. discriminate. Qed.

Lemma perform_forwards op (w : World) server :
  state w = Running -> _server w = Some server ->
  fst (perform op w) = record_call (forwarded op) w.
Proof.
  open_world w. simpl. intros -> ->. destruct op; reflexivity.
Qed.

(** C6.  Each of the five operations, called in a state other than
    [Running], throws the error that names the state 'Running' and leaves the
    world as it is: nothing reaches the server, state and server are
    untouched.  In state [Running] without a stored server it throws the
    other error, 'No server is configured', and again changes nothing. *)
Theorem C6_checked_access op (w : World) :
  (state w <> Running ->
   perform op w = (w, Some (not_running_error (id w))))
  /\ (state w = Running -> _server w = None ->
      perform op w = (w, Some (no_server_error (id w))))
  /\ (forall i j, not_running_error i <> no_server_error j)
  /\ not_running_error (id w)
     = ("Client with id '" ++ id w ++ "' is not in 'Running' state")%string.
Proof.
  split; [|split; [|split]].
  - open_world w. simpl. intros Hne.
    destruct op; destruct st; try congruence; reflexivity.
  - open_world w. simpl. intros -> ->. destruct op; reflexivity.
  - apply error_messages_distinct.
  - reflexivity.
Qed.

Lemma C6_witness :
  perform (OpSendActionMessage "m") (constructor "client")
  = (constructor "client", Some (not_running_error "client")).
Proof.
  apply (proj1 (C6_checked_access (OpSendActionMessage "m") (constructor "client"))).
  simpl. discriminate.
Defined.

(** Scenario B: a running client forwards the message to its server. *)
Lemma running_client_forwards message :
  calls (fst (sendActionMessage message (running_with quiet_server)))
  = [CallProcess message].
Proof. reflexivity. Qed.

(** Scenario C: a handler registered on a running client receives a
    message of the server once. *)
Lemma registered_handler_receives_once :
  let w := fst (onActionMessage 7 (running_with quiet_server)) in
  invoked (proxy_process passive ping w) = [(7%nat, ping)].
Proof. vm_compute. reflexivity. Qed.

(** ** The stored server *)

Lemma stored_server_step ev (w : World) server :
  reachable w -> _server w = Some server -> _server (step ev w) = Some server.
Proof.
  intros Hr Hsv.
  assert (Hrc : race w = Reacted).
  { apply reachable_consistent in Hr. open_world w. open_consistent Hr.
    subst sv. destruct rc; shape_cases; reflexivity. }
  clear Hr.
  destruct ev; simpl; try rewrite proxy_process_after;
    open_world w; simpl in *; subst; unfold_step; reflexivity.
Qed.

Lemma stored_server_exec evs (w : World) server :
  reachable w -> _server w = Some server -> _server (exec evs w) = Some server.
Proof.
  revert w. induction evs as [|ev evs IH]; intros w Hr Hsv; simpl; [assumption|].
  apply IH; [now constructor | now apply stored_server_step].
Qed.

(** C7 (as the code has it).  A server is stored exactly when the started
    signal is resolved.  At the end of every call: in state [Running] a
    server is stored; in states [Initial], [Starting] and [StartFailed] none
    is.  Once stored, the server stays stored whatever happens, also in
    state [Stopped]: [stop()] does not clear it. *)
Theorem C7_stored_server (w : World) :
  reachable w ->
  (_server w <> None <-> outcome w (onStart w) = Fulfilled tt)
  /\ (state w = Running -> _server w <> None)
  /\ (state w = Initial \/ state w = Starting \/ state w = StartFailed ->
      _server w = None)
  /\ (forall server, _server w = Some server ->
      forall evs, _server (exec evs w) = Some server).
Proof.
  intros Hr. split; [|split; [|split]].
  - apply reachable_consistent in Hr. open_world w. open_consistent Hr.
    destruct rc; shape_cases; split; intros H; congruence.
  - apply reachable_consistent in Hr. open_world w. open_consistent Hr.
    intros ->. destruct rc; shape_cases; discriminate.
  - apply reachable_consistent in Hr. open_world w. open_consistent Hr.
    intros Hst. destruct rc; shape_cases; reflexivity.
  - intros server Hsv evs. now apply stored_server_exec.
Qed.

Lemma C7_witness :
  let w := exec [Stop] (running_with quiet_server) in
  (_server w <> None <-> outcome w (onStart w) = Fulfilled tt)
  /\ (state w = Running -> _server w <> None)
  /\ (state w = Initial \/ state w = Starting \/ state w = StartFailed ->
      _server w = None)
  /\ (forall server, _server w = Some server ->
      forall evs, _server (exec evs w) = Some server).
Proof.
  apply (C7_stored_server (exec [Stop] (running_with quiet_server))).
  apply reachable_exec. apply reachable_running_with.
Defined.

(** C7 as the specification states it fails: after a successful start and
    [stop()], the state is [Stopped] and the server is still stored. *)
Lemma C7_counterexample :
  ~ (forall w : World,
        reachable w ->
        outcome w (onStart w) = Fulfilled tt ->
        (_server w <> None
         <-> state w = Running \/ state w = Stopping \/ state w = Starting)).
Proof.
  intros H.
  set (w := exec [Stop] (running_with quiet_server)).
  assert (Hr : reachable w).
  { apply reachable_exec. apply reachable_running_with. }
  assert (Hon : outcome w (onStart w) = Fulfilled tt) by (vm_compute; reflexivity).
  assert (Hsv : _server w <> None) by (vm_compute; discriminate).
  assert (Hst : state w = Stopped) by (vm_compute; reflexivity).
  destruct (H w Hr Hon) as [Hto _].
  specialize (Hto Hsv). rewrite Hst in Hto.
  destruct Hto as [Hto | [Hto | Hto]]; discriminate Hto.
Qed.

(** ** Dispatch *)

Lemma invoked_handlers_prefix behaviour message snapshot :
  exists rest,
    snapshot = (invoked_handlers behaviour message snapshot ++ rest)%list.
Proof.
  induction snapshot as [|h l [rest IH]]; simpl.
  - exists []. reflexivity.
  - destruct (completion (behaviour h message)).
    + exists rest. simpl. now rewrite <- IH.
    + exists l. reflexivity.
Qed.

Lemma invoked_handlers_all behaviour message snapshot :
  (forall h e, In h snapshot -> completion (behaviour h message) <> Throws e) ->
  invoked_handlers behaviour message snapshot = snapshot.
Proof.
  induction snapshot as [|h l IH]; simpl; intros Hret; [reflexivity|].
  destruct (completion (behaviour h message)) eqn:E.
  - f_equal. apply IH. intros h' e Hin. apply Hret. now right.
  - exfalso. apply (Hret h e); [now left | assumption].
Qed.

Lemma In_invoked_handlers behaviour message snapshot h :
  In h (invoked_handlers behaviour message snapshot) -> In h snapshot.
Proof.
  destruct (invoked_handlers_prefix behaviour message snapshot) as [rest E].
  intros Hin. rewrite E. apply in_or_app. now left.
Qed.

Lemma NoDup_invoked_handlers behaviour message snapshot :
  NoDup snapshot -> NoDup (invoked_handlers behaviour message snapshot).
Proof.
  destruct (invoked_handlers_prefix behaviour message snapshot) as [rest E].
  intros Hnd. rewrite E in Hnd. eapply NoDup_app_remove_r. eassumption.
Qed.

Lemma NoDup_deliveries (message : ActionMessage) (l : list ActionMessageHandler) :
  NoDup l -> NoDup (map (fun h => (h, message)) l).
Proof.
  induction 1 as [|h l Hh Hl IH]; simpl; constructor; [|assumption].
  rewrite in_map_iff. intros [x [Hx Hin]]. injection Hx as ->. contradiction.
Qed.

Lemma forEach_completed behaviour message snapshot :
  (forall h e, In h snapshot -> completion (behaviour h message) <> Throws e) ->
  forall (w : World) delivered,
    snd (forEach behaviour message snapshot w delivered) = Returns tt.
Proof.
  induction snapshot as [|h l IH]; simpl; intros Hret w delivered; [reflexivity|].
  destruct (completion (behaviour h message)) eqn:E.
  - apply IH. intros h' e Hin. apply Hret. now right.
  - exfalso. apply (Hret h e); [now left | assumption].
Qed.

Lemma called_spec behaviour message (w : World) :
  called (proxy_process behaviour message w)
  = invoked_handlers behaviour message (actionMessageHandlers w).
Proof.
  unfold called. rewrite proxy_process_invoked, map_map. simpl.
  apply map_id.
Qed.

Lemma proxy_process_completed behaviour message (w : World) :
  (forall h e, In h (actionMessageHandlers w) ->
               completion (behaviour h message) <> Throws e) ->
  completed (proxy_process behaviour message w) = Returns tt.
Proof.
  intros Hret. unfold proxy_process.
  destruct (actionMessageHandlers w) as [|h rest] eqn:Hhs; [reflexivity|].
  cbn [List.length Nat.eqb].
  pose proof (forEach_completed behaviour message (h :: rest) Hret w []) as Hc.
  destruct (forEach behaviour message (h :: rest) w []) as [[w1 d1] r].
  exact Hc.
Qed.

Lemma absent_stays_absent cs array h :
  ~ In h array -> ~ In (Subscribe h) cs ->
  ~ In h (fold_left registry_step cs array).
Proof.
  revert array. induction cs as [|c cs IH]; simpl; intros array Hnin Hns; [assumption|].
  apply IH; [|tauto].
  destruct c as [x|x]; simpl.
  - rewrite In_distinctAdd. intros [H | ->]; [contradiction|]. apply Hns. now left.
  - intros H. apply Hnin. eapply In_remove. eassumption.
Qed.

Lemma unsubscribed_is_gone cs array h :
  NoDup array -> In (Unsubscribe h) cs -> ~ In (Subscribe h) cs ->
  ~ In h (fold_left registry_step cs array).
Proof.
  revert array. induction cs as [|c cs IH]; simpl; intros array Hnd Hin Hns; [contradiction|].
  destruct Hin as [-> | Hin].
  - apply absent_stays_absent; [|tauto]. simpl. now apply remove_NoDup_gone.
  - apply IH; [|assumption|tauto].
    destruct c; simpl; auto using NoDup_distinctAdd, NoDup_remove.
Qed.

Lemma NoDup_app_disjoint (A B : list ActionMessageHandler) x :
  NoDup (A ++ B) -> In x A -> In x B -> False.
Proof.
  induction A as [|a A IH]; simpl; intros Hnd HA HB; [contradiction|].
  inversion Hnd as [|? ? Ha Hrest]; subst.
  destruct HA as [-> | HA].
  - apply Ha. apply in_or_app. now right.
  - now apply IH.
Qed.

Lemma forEach_completion behaviour message snapshot :
  forall (w : World) delivered,
    snd (forEach behaviour message snapshot w delivered)
    = match first_failure behaviour message snapshot with
      | Some e => Throws e
      | None => Returns tt
      end.
Proof.
  induction snapshot as [|h l IH]; simpl; intros w delivered; [reflexivity|].
  destruct (completion (behaviour h message)); [apply IH | reflexivity].
Qed.

Lemma proxy_process_completion behaviour message (w : World) :
  completed (proxy_process behaviour message w)
  = match first_failure behaviour message (actionMessageHandlers w) with
    | Some e => Throws e
    | None => Returns tt
    end.
Proof.
  unfold proxy_process.
  destruct (actionMessageHandlers w) as [|h rest] eqn:Hhs; [reflexivity|].
  cbn [List.length Nat.eqb].
  pose proof (forEach_completion behaviour message (h :: rest) w []) as Hc.
  destruct (forEach behaviour message (h :: rest) w []) as [[w1 d1] r].
  exact Hc.
Qed.

Lemma first_thrower behaviour message before h later e :
  (forall h' e', In h' before ->
                 completion (behaviour h' message) <> Throws e') ->
  completion (behaviour h message) = Throws e ->
  invoked_handlers behaviour message (before ++ h :: later)
  = (before ++ [h])%list
  /\ first_failure behaviour message (before ++ h :: later) = Some e.
Proof.
  intros Hret Hthrow. induction before as [|b before IH]; simpl.
  - rewrite Hthrow. split; reflexivity.
  - destruct (completion (behaviour b message)) eqn:E.
    + destruct IH as [-> ->]; [|split; reflexivity].
      intros h' e' Hin. apply Hret. now right.
    + exfalso. apply (Hret b e0); [now left | assumption].
Qed.

(** C8 (as the code has it).  A dispatch works on the handler array as it is
    when the dispatch begins.  With an empty array it warns, calls nothing
    and returns.  Otherwise it calls the handlers of that array in order,
    each with the message, up to and including the first handler that
    throws; when no handler throws these are all handlers of the array, each
    once, whatever the handlers register or dispose meanwhile.  When a
    handler throws, the handlers after it are not called and the call of
    [process] throws that error.  A handler disposed during the round and
    not registered again in it is not in the array afterwards, and a handler
    that is not in the array is not called by the next dispatch. *)
Theorem C8_dispatch behaviour message (w : World) :
  reachable w ->
  let d := proxy_process behaviour message w in
  (actionMessageHandlers w = [] ->
   invoked d = [] /\ warned d = true /\ completed d = Returns tt /\ after d = w)
  /\ (actionMessageHandlers w <> [] -> warned d = false)
  /\ invoked d = map (fun h => (h, message))
                     (invoked_handlers behaviour message (actionMessageHandlers w))
  /\ ((forall h e, In h (actionMessageHandlers w) ->
                   completion (behaviour h message) <> Throws e) ->
      invoked d = map (fun h => (h, message)) (actionMessageHandlers w)
      /\ completed d = Returns tt)
  /\ NoDup (invoked d)
  /\ (forall h,
        In (Unsubscribe h)
           (dispatch_calls behaviour message (actionMessageHandlers w)) ->
        ~ In (Subscribe h)
             (dispatch_calls behaviour message (actionMessageHandlers w)) ->
        ~ In h (actionMessageHandlers (after d)))
  /\ (forall h, ~ In h (actionMessageHandlers (after d)) ->
      forall behaviour' message',
        ~ In h (called (proxy_process behaviour' message' (after d))))
  /\ completed d
     = match first_failure behaviour message (actionMessageHandlers w) with
       | Some e => Throws e
       | None => Returns tt
       end
  /\ (forall before h later e,
        actionMessageHandlers w = (before ++ h :: later)%list ->
        (forall h' e', In h' before ->
                       completion (behaviour h' message) <> Throws e') ->
        completion (behaviour h message) = Throws e ->
        called d = (before ++ [h])%list
        /\ (forall h', In h' later -> ~ In h' (called d))
        /\ completed d = Throws e).
Proof.
  intros Hr d.
  assert (Hnd : NoDup (actionMessageHandlers w)).
  { apply reachable_consistent in Hr. apply Hr. }
  split; [|split; [|split; [|split; [|split; [|split; [|split; [|split]]]]]]].
  - intros Hempty. subst d. unfold proxy_process. rewrite Hempty.
    repeat split.
  - intros Hne. subst d. unfold proxy_process.
    destruct (actionMessageHandlers w) as [|h rest]; [congruence|].
    cbn [List.length Nat.eqb].
    destruct (forEach behaviour message (h :: rest) w []) as [[w1 d1] r].
    reflexivity.
  - apply proxy_process_invoked.
  - intros Hret. split.
    + subst d. rewrite proxy_process_invoked.
      now rewrite invoked_handlers_all.
    + now apply proxy_process_completed.
  - subst d. rewrite proxy_process_invoked.
    apply NoDup_deliveries. now apply NoDup_invoked_handlers.
  - intros h Hun Hsub. subst d. rewrite proxy_process_after. simpl.
    now apply unsubscribed_is_gone.
  - intros h Hnin behaviour' message'. rewrite called_spec.
    intros Hin. apply Hnin. eapply In_invoked_handlers. eassumption.
  - apply proxy_process_completion.
  - intros before h later e Hhs Hret Hthrow.
    destruct (first_thrower behaviour message before h later e Hret Hthrow)
      as [Hcalled Hfail].
    subst d. rewrite called_spec, proxy_process_completion, Hhs, Hcalled, Hfail.
    split; [reflexivity | split; [|reflexivity]].
    intros h' Hlater Hin. rewrite Hhs in Hnd.
    replace (before ++ h :: later)%list with ((before ++ [h]) ++ later)%list
      in Hnd by (rewrite <- app_assoc; reflexivity).
    exact (NoDup_app_disjoint _ _ _ Hnd Hin Hlater).
Qed.

Lemma reachable_two_handlers : reachable two_handlers.
Proof. apply reachable_exec. constructor. Qed.

Lemma C8_witness :
  (let d := proxy_process self_disposing ping two_handlers in
   invoked d = map (fun h => (h, ping)) (actionMessageHandlers two_handlers)
   /\ completed d = Returns tt
   /\ ~ In 1%nat (actionMessageHandlers (after d))
   /\ forall behaviour' message',
       ~ In 1%nat (called (proxy_process behaviour' message' (after d))))
  /\ (let d := proxy_process first_throws ping two_handlers in
      called d = ([] ++ [1%nat])%list
      /\ (forall h', In h' [2%nat] -> ~ In h' (called d))
      /\ completed d = Throws "handler failed").
Proof.
  split.
  - intros d.
    destruct (C8_dispatch self_disposing ping two_handlers reachable_two_handlers)
      as (_ & _ & _ & Hall & _ & Hgone & Hnext & _ & _).
    assert (Hret : forall h e, In h (actionMessageHandlers two_handlers) ->
                               completion (self_disposing h ping) <> Throws e).
    { intros h e _. simpl. discriminate. }
    assert (Hun : In (Unsubscribe 1)
                     (dispatch_calls self_disposing ping
                                     (actionMessageHandlers two_handlers))).
    { vm_compute. left. reflexivity. }
    assert (Hsub : ~ In (Subscribe 1)
                        (dispatch_calls self_disposing ping
                                        (actionMessageHandlers two_handlers))).
    { vm_compute. intros [H | [H | []]]; discriminate H. }
    destruct (Hall Hret) as [Hinv Hcompleted].
    split; [exact Hinv | split; [exact Hcompleted | split]].
    + exact (Hgone 1%nat Hun Hsub).
    + exact (Hnext 1%nat (Hgone 1%nat Hun Hsub)).
  - intros d.
    destruct (C8_dispatch first_throws ping two_handlers reachable_two_handlers)
      as (_ & _ & _ & _ & _ & _ & _ & _ & Hthrow).
    apply (Hthrow [] 1%nat [2%nat] "handler failed"%string).
    + reflexivity.
    + intros h' e' [].
    + reflexivity.
Defined.

(** C8 as the specification states it fails: when the first of two
    registered handlers throws, the second one is not called. *)
Lemma C8_counterexample :
  ~ (forall behaviour message (w : World),
        reachable w ->
        forall h, In h (actionMessageHandlers w) ->
                  In (h, message) (invoked (proxy_process behaviour message w))).
Proof.
  intros H.
  assert (Hin : In 2%nat (actionMessageHandlers two_handlers)).
  { vm_compute. right. left. reflexivity. }
  assert (Hout : ~ In (2%nat, ping)
                      (invoked (proxy_process first_throws ping two_handlers))).
  { vm_compute. intros [E | []]. discriminate E. }
  apply Hout.
  apply (H first_throws ping two_handlers reachable_two_handlers 2%nat Hin).
Qed.

(** ** Registration *)

Lemma remove_filter array value :
  NoDup array ->
  remove array value = filter (fun x => negb (Nat.eqb value x)) array.
Proof.
  induction 1 as [|x l Hx Hl IH]; simpl; [reflexivity|].
  destruct (Nat.eqb value x) eqn:E; simpl.
  - apply Nat.eqb_eq in E. subst x.
    symmetry. apply forallb_filter_id. apply forallb_forall.
    intros y Hy. destruct (Nat.eqb value y) eqn:Ey; [|reflexivity].
    apply Nat.eqb_eq in Ey. subst y. contradiction.
  - now rewrite IH.
Qed.

Lemma onActionMessage_registered handler (w : World) :
  In handler (actionMessageHandlers w) -> fst (onActionMessage handler w) = w.
Proof.
  intros Hin. unfold onActionMessage. cbn [fst].
  rewrite (distinctAdd_present _ _ Hin). apply assign_handlers_same.
Qed.

(** C9.  Registering a handler that is registered changes nothing; after
    [onActionMessage(handler)] the handler is registered, the handlers
    registered before still are, in their order, and no handler occurs
    twice.  Disposing the returned [Disposable], at any later time, takes
    exactly that handler out of the array and keeps the others in place. *)
Theorem C9_onActionMessage handler (w : World) :
  reachable w ->
  let w1 := fst (onActionMessage handler w) in
  let d := snd (onActionMessage handler w) in
  (In handler (actionMessageHandlers w) -> w1 = w)
  /\ fst (onActionMessage handler w1) = w1
  /\ In handler (actionMessageHandlers w1)
  /\ NoDup (actionMessageHandlers w1)
  /\ (exists added, actionMessageHandlers w1
                    = (actionMessageHandlers w ++ added)%list)
  /\ (forall later : World,
        reachable later ->
        let w2 := dispose d later in
        ~ In handler (actionMessageHandlers w2)
        /\ actionMessageHandlers w2
           = filter (fun x => negb (Nat.eqb handler x))
                    (actionMessageHandlers later)
        /\ (forall other, other <> handler ->
              (In other (actionMessageHandlers w2)
               <-> In other (actionMessageHandlers later)))).
Proof.
  intros Hr w1 d.
  assert (Hnd : NoDup (actionMessageHandlers w)).
  { apply reachable_consistent in Hr. apply Hr. }
  assert (Hin1 : In handler (actionMessageHandlers w1)).
  { subst w1. simpl. apply In_distinctAdd. now right. }
  split; [|split; [|split; [|split; [|split]]]].
  - intros Hin. now apply onActionMessage_registered.
  - now apply onActionMessage_registered.
  - exact Hin1.
  - subst w1. simpl. now apply NoDup_distinctAdd.
  - subst w1. simpl. unfold distinctAdd.
    destruct (existsb (Nat.eqb handler) (actionMessageHandlers w)).
    + exists []. now rewrite app_nil_r.
    + exists [handler]. reflexivity.
  - intros later Hlater w2.
    assert (Hnd' : NoDup (actionMessageHandlers later)).
    { apply reachable_consistent in Hlater. apply Hlater. }
    subst w2 d. simpl. split; [|split].
    + now apply remove_NoDup_gone.
    + now apply remove_filter.
    + intros other Hne. split.
      * apply In_remove.
      * now apply In_remove_other.
Qed.

Lemma C9_witness :
  let w1 := fst (onActionMessage 2 two_handlers) in
  let d := snd (onActionMessage 2 two_handlers) in
  (In 2%nat (actionMessageHandlers two_handlers) -> w1 = two_handlers)
  /\ fst (onActionMessage 2 w1) = w1
  /\ In 2%nat (actionMessageHandlers w1)
  /\ NoDup (actionMessageHandlers w1)
  /\ (exists added, actionMessageHandlers w1
                    = (actionMessageHandlers two_handlers ++ added)%list)
  /\ (forall later : World,
        reachable later ->
        let w2 := dispose d later in
        ~ In 2%nat (actionMessageHandlers w2)
        /\ actionMessageHandlers w2
           = filter (fun x => negb (Nat.eqb 2 x)) (actionMessageHandlers later)
        /\ (forall other, other <> 2%nat ->
              (In other (actionMessageHandlers w2)
               <-> In other (actionMessageHandlers later)))).
Proof.
  apply (C9_onActionMessage 2 two_handlers reachable_two_handlers).
Defined.

(** ** Registration order *)

Lemma map_fst_register regs handler time :
  map fst (register regs handler time) = distinctAdd (map fst regs) handler.
Proof.
  unfold register, distinctAdd.
  destruct (existsb (Nat.eqb handler) (map fst regs)); [reflexivity|].
  now rewrite map_app.
Qed.

Lemma map_fst_unregister regs handler :
  map fst (unregister regs handler) = remove (map fst regs) handler.
Proof.
  induction regs as [|r rest IH]; simpl; [reflexivity|].
  destruct (Nat.eqb handler (fst r)); simpl; [reflexivity | now rewrite IH].
Qed.

Lemma map_fst_registrations cs time regs :
  map fst (registrations cs time regs)
  = fold_left registry_step cs (map fst regs).
Proof.
  revert time regs. induction cs as [|c cs IH]; intros time regs; simpl; [reflexivity|].
  rewrite IH. f_equal. destruct c; simpl.
  - apply map_fst_register.
  - apply map_fst_unregister.
Qed.

Lemma handlers_step ev (w : World) :
  actionMessageHandlers (step ev w)
  = fold_left registry_step (registry_calls_of ev w) (actionMessageHandlers w).
Proof.
  destruct ev; simpl; try rewrite proxy_process_after; try reflexivity;
    open_world w; simpl; unfold_step; reflexivity.
Qed.

Lemma handlers_exec evs (w : World) :
  actionMessageHandlers (exec evs w)
  = fold_left registry_step (registry_trace evs w) (actionMessageHandlers w).
Proof.
  revert w. induction evs as [|ev evs IH]; intros w; simpl; [reflexivity|].
  rewrite fold_left_app, <- handlers_step. apply IH.
Qed.

Lemma live_registrations_handlers evs id :
  map fst (live_registrations evs id)
  = actionMessageHandlers (exec evs (constructor id)).
Proof.
  unfold live_registrations. rewrite map_fst_registrations, handlers_exec.
  reflexivity.
Qed.

Lemma In_unregister regs handler r :
  In r (unregister regs handler) -> In r regs.
Proof.
  induction regs as [|x rest IH]; simpl; [tauto|].
  destruct (Nat.eqb handler (fst x)); simpl; intuition.
Qed.

Lemma StronglySorted_unregister regs handler :
  StronglySorted earlier regs -> StronglySorted earlier (unregister regs handler).
Proof.
  induction 1 as [|x rest Hrest IH Hx]; simpl; [constructor|].
  destruct (Nat.eqb handler (fst x)); [assumption|].
  constructor; [assumption|].
  rewrite Forall_forall in *. intros r Hr. apply Hx.
  eapply In_unregister. eassumption.
Qed.

Lemma StronglySorted_snoc regs r :
  StronglySorted earlier regs ->
  Forall (fun x => earlier x r) regs ->
  StronglySorted earlier (regs ++ [r]).
Proof.
  induction 1 as [|x rest Hrest IH Hx]; simpl; intros Hall.
  - constructor; constructor.
  - inversion Hall as [|? ? Hxr Hrest']; subst.
    constructor; [now apply IH|].
    apply Forall_app. split; [assumption|]. constructor; [assumption | constructor].
Qed.

Lemma in_time_order_step regs time c :
  in_time_order time regs -> in_time_order (S time) (stamp_step regs time c).
Proof.
  intros [Hsorted Hbound]. destruct c as [handler|d]; simpl.
  - unfold register.
    destruct (existsb (Nat.eqb handler) (map fst regs)).
    + split; [assumption|].
      eapply Forall_impl; [|eassumption]. simpl. intros; lia.
    + split.
      * apply StronglySorted_snoc; assumption.
      * apply Forall_app. split.
        -- eapply Forall_impl; [|eassumption]. simpl. intros; lia.
        -- constructor; [simpl; lia | constructor].
  - split.
    + now apply StronglySorted_unregister.
    + rewrite Forall_forall in *. intros r Hr.
      apply In_unregister in Hr. apply Hbound in Hr. lia.
Qed.

Lemma in_time_order_registrations cs time regs :
  in_time_order time regs ->
  exists bound, in_time_order bound (registrations cs time regs).
Proof.
  revert time regs. induction cs as [|c cs IH]; intros time regs H; simpl.
  - exists time. assumption.
  - apply (IH (S time)). now apply in_time_order_step.
Qed.

Lemma live_registrations_sorted evs id :
  StronglySorted earlier (live_registrations evs id).
Proof.
  unfold live_registrations.
  destruct (in_time_order_registrations
              (registry_trace evs (constructor id)) 0 []) as [bound [H _]].
  - split; constructor.
  - exact H.
Qed.

(** In a list kept in time order, the earlier registration comes first. *)
Lemma earlier_comes_first regs a b :
  StronglySorted earlier regs ->
  In a regs -> In b regs -> earlier a b ->
  exists l1 l2 l3, regs = (l1 ++ a :: l2 ++ b :: l3)%list.
Proof.
  unfold earlier.
  induction 1 as [|r rest Hrest IH Hr]; simpl; intros Ha Hb Hab; [contradiction|].
  rewrite Forall_forall in Hr. unfold earlier in Hr.
  destruct Ha as [-> | Ha]; destruct Hb as [-> | Hb].
  - lia.
  - apply in_split in Hb. destruct Hb as (l2 & l3 & ->).
    exists [], l2, l3. reflexivity.
  - specialize (Hr a Ha). lia.
  - destruct (IH Ha Hb Hab) as (l1 & l2 & l3 & ->).
    exists (r :: l1), l2, l3. reflexivity.
Qed.

Lemma prefix_reaches (P R A C : list ActionMessageHandler) x :
  NoDup (P ++ R) ->
  (P ++ R)%list = (A ++ x :: C)%list ->
  In x P ->
  exists C', P = (A ++ x :: C')%list.
Proof.
  revert P. induction A as [|a A IH]; intros P Hnd Heq Hin.
  - destruct P as [|p P']; [contradiction|].
    simpl in Heq. injection Heq as -> _. exists P'. reflexivity.
  - destruct P as [|p P']; [contradiction|].
    simpl in Heq. injection Heq as -> Heq.
    simpl in Hnd. inversion Hnd as [|? ? Hnotin Hnd']; subst.
    destruct Hin as [-> | Hin].
    + exfalso. apply Hnotin. rewrite Heq. apply in_or_app. right. now left.
    + destruct (IH P' Hnd' Heq Hin) as [C' ->].
      exists C'. reflexivity.
Qed.

(** C10.  Take two handlers [h1] and [h2] that are registered when a
    dispatch begins, the live registration of [h1] being the earlier one.
    The dispatch calls handlers in the order of the array, so if it calls
    [h2] it has called [h1] before; and it does call [h2] when no handler
    throws.  No handler is called twice. *)
Theorem C10_registration_order id evs behaviour message h1 t1 h2 t2 :
  let w := exec evs (constructor id) in
  let regs := live_registrations evs id in
  In (h1, t1) regs -> In (h2, t2) regs -> (t1 < t2)%nat ->
  let d := proxy_process behaviour message w in
  map fst regs = actionMessageHandlers w
  /\ (In h2 (called d) ->
      exists before between later,
        called d = (before ++ h1 :: between ++ h2 :: later)%list)
  /\ ((forall h e, In h (actionMessageHandlers w) ->
                   completion (behaviour h message) <> Throws e) ->
      In h2 (called d))
  /\ NoDup (called d).
Proof.
  intros w regs H1 H2 Ht d.
  assert (Hmap : map fst regs = actionMessageHandlers w).
  { apply live_registrations_handlers. }
  assert (Hnd : NoDup (actionMessageHandlers w)).
  { assert (Hr : reachable w) by (apply reachable_exec; constructor).
    apply reachable_consistent in Hr. apply Hr. }
  assert (Hcalled : called d
                    = invoked_handlers behaviour message (actionMessageHandlers w)).
  { apply called_spec. }
  destruct (earlier_comes_first regs (h1, t1) (h2, t2)
              (live_registrations_sorted evs id) H1 H2 Ht)
    as (l1 & l2 & l3 & Hregs).
  assert (Hhs : actionMessageHandlers w
                = ((map fst l1 ++ h1 :: map fst l2) ++ h2 :: map fst l3)%list).
  { rewrite <- Hmap, Hregs. rewrite map_app. simpl. rewrite map_app. simpl.
    now rewrite <- app_assoc. }
  split; [exact Hmap | split; [|split]].
  - intros Hin. rewrite Hcalled in *.
    destruct (invoked_handlers_prefix behaviour message (actionMessageHandlers w))
      as [rest Hprefix].
    destruct (prefix_reaches
                (invoked_handlers behaviour message (actionMessageHandlers w))
                rest (map fst l1 ++ h1 :: map fst l2) (map fst l3) h2)
      as [C' HC'].
    + now rewrite <- Hprefix.
    + now rewrite <- Hprefix.
    + exact Hin.
    + exists (map fst l1), (map fst l2), C'.
      rewrite HC'. now rewrite <- app_assoc.
  - intros Hret. rewrite Hcalled, (invoked_handlers_all _ _ _ Hret), Hhs.
    apply in_or_app. right. now left.
  - rewrite Hcalled. now apply NoDup_invoked_handlers.
Qed.

Lemma C10_witness :
  let evs := [OnActionMessage 1; OnActionMessage 2; Dispose 1; OnActionMessage 1] in
  let w := exec evs (constructor "client") in
  let d := proxy_process passive ping w in
  map fst (live_registrations evs "client") = actionMessageHandlers w
  /\ (In 1%nat (called d) ->
      exists before between later,
        called d = (before ++ 2%nat :: between ++ 1%nat :: later)%list)
  /\ ((forall h e, In h (actionMessageHandlers w) ->
                   completion (passive h ping) <> Throws e) ->
      In 1%nat (called d))
  /\ NoDup (called d).
Proof.
  apply (C10_registration_order "client"
           [OnActionMessage 1; OnActionMessage 2; Dispose 1; OnActionMessage 1]
           passive ping 2%nat 1%nat 1%nat 3%nat).
  - vm_compute. left. reflexivity.
  - vm_compute. right. left. reflexivity.
  - apply le_S, le_n.
Defined.

(** * Further properties of the client *)

(** ** One event at a time *)

Lemma step_effect ev (w : World) : reachable w -> StepEffect w (step ev w).
Proof.
  intros Hr. apply reachable_consistent in Hr.
  destruct ev; simpl; try rewrite proxy_process_after;
    open_world w; open_consistent Hr; unfold_step;
    try match goal with
        | H : match ?r with NotCreated => _ | _ => _ end |- _ => destruct r
        end;
    shape_cases;
    repeat match goal with v : unit |- _ => destruct v end;
    first [ apply effect_none; simpl; first [reflexivity | congruence]
          | apply effect_started; simpl; first [reflexivity | congruence]
          | apply effect_stopped; simpl;
            first [reflexivity | discriminate | congruence]
          | eapply effect_attached; simpl; first [reflexivity | congruence]
          | apply effect_timed_out; simpl; first [reflexivity | congruence]
          | exfalso; eapply Hgate; reflexivity
          | exfalso; eapply HonStop; reflexivity ].
Qed.

Lemma reachable_head (w : World) :
  reachable w -> exists earlier_states, history w = state w :: earlier_states.
Proof.
  intros Hr. apply reachable_consistent in Hr.
  destruct Hr as [_ _ _ _ _ Hhead _].
  destruct (history w) as [|s rest]; simpl in Hhead; [discriminate|].
  injection Hhead as ->. exists rest. reflexivity.
Qed.

Lemma open_race_is_unsettled (w : World) :
  reachable w -> race w = Armed ->
  onStartDeferred w = Pending /\ _server w = None /\ state w <> Initial.
Proof.
  intros Hr Hrc. apply reachable_consistent in Hr.
  open_world w. open_consistent Hr. subst rc.
  shape_cases; repeat split; discriminate.
Qed.

(** ** start() takes effect once *)

(** X1.  In every session [Initial] is assigned once, by the constructor,
    and [Starting] at most once: [start()] opens its race in one call only,
    the first one made in state [Initial].  A client that has left
    [Initial] never comes back to it. *)
Theorem start_takes_effect_once (w : World) :
  reachable w ->
  assigned Initial w = 1%nat
  /\ (assigned Starting w <= 1)%nat
  /\ (state w = Initial -> assigned Starting w = 0%nat)
  /\ (state w <> Initial -> forall evs, state (exec evs w) <> Initial).
Proof.
  intros Hr.
  assert (Hcount : assigned Initial w = 1%nat
                   /\ (assigned Starting w <= 1)%nat
                   /\ (state w = Initial -> assigned Starting w = 0%nat)).
  { induction Hr as [id|ev w Hr IH].
    - repeat split; auto.
    - destruct IH as (Hone & Hstart & Hfresh).
      unfold assigned in *.
      destruct (step_effect ev w Hr)
        as [Hst Hhi _ _ _ _ | Hst Hst' Hhi _ _ _ _ | _ Hst' Hhi _ _ _ _
            | server _ _ Hst' Hhi _ _ _ _ | _ _ Hst' Hhi _ _ _ _];
        rewrite Hhi; simpl.
      + rewrite Hst. auto.
      + rewrite Hst'. rewrite (Hfresh Hst). repeat split; auto. discriminate.
      + rewrite Hst'. repeat split; auto. discriminate.
      + rewrite Hst'. repeat split; auto. discriminate.
      + rewrite Hst'. repeat split; auto. discriminate. }
  destruct Hcount as (Hone & Hstart & Hfresh).
  repeat split; try assumption.
  intros Hne evs. clear Hone Hstart Hfresh. revert w Hr Hne.
  induction evs as [|ev evs IH]; intros w Hr Hne; simpl; [assumption|].
  apply IH; [now constructor|].
  destruct (step_effect ev w Hr)
    as [Hst _ _ _ _ _ | Hst _ _ _ _ _ _ | _ Hst' _ _ _ _ _
        | server _ _ Hst' _ _ _ _ _ | _ _ Hst' _ _ _ _ _];
    congruence.
Qed.

Lemma start_takes_effect_once_witness :
  let w := exec [Start; Stop; Start] (running_with quiet_server) in
  assigned Initial w = 1%nat
  /\ (assigned Starting w <= 1)%nat
  /\ (state w = Initial -> assigned Starting w = 0%nat)
  /\ (state w <> Initial -> forall evs, state (exec evs w) <> Initial).
Proof.
  apply (start_takes_effect_once
           (exec [Start; Stop; Start] (running_with quiet_server))).
  apply reachable_exec. apply reachable_running_with.
Defined.

(** ** The two signals *)

(** X2.  The started signal settles at most once.  Once settled it is
    resolved or rejected with the startup error, and nothing that happens
    later, neither a late [configureServer()] nor the timer nor [stop()],
    changes it. *)
Theorem started_signal_settles_once (w : World) :
  reachable w ->
  outcome w (onStart w) <> Pending ->
  (outcome w (onStart w) = Fulfilled tt
   \/ outcome w (onStart w) = Rejected startup_timeout_error)
  /\ forall evs,
      outcome (exec evs w) (onStart (exec evs w)) = outcome w (onStart w).
Proof.
  intros Hr Hset. split.
  - apply reachable_consistent in Hr. open_world w. open_consistent Hr.
    destruct rc; shape_cases; auto; congruence.
  - intros evs. simpl in *. revert w Hr Hset.
    induction evs as [|ev evs IH]; intros w Hr Hset; simpl; [reflexivity|].
    assert (Hsame : onStartDeferred (step ev w) = onStartDeferred w).
    { destruct (step_effect ev w Hr)
        as [_ _ _ _ Hon _ | _ _ _ _ _ Hon _ | _ _ _ _ _ Hon _
            | server Hrc _ _ _ _ _ _ _ | Hrc _ _ _ _ _ _ _];
        try exact Hon;
        destruct (open_race_is_unsettled w Hr Hrc) as (Hp & _); congruence. }
    rewrite <- Hsame. apply IH; [now constructor | congruence].
Qed.

Lemma started_signal_settles_once_witness :
  let w := exec [Start; Elapse 1500] (constructor "client") in
  (outcome w (onStart w) = Fulfilled tt
   \/ outcome w (onStart w) = Rejected startup_timeout_error)
  /\ forall evs,
      outcome (exec evs w) (onStart (exec evs w)) = outcome w (onStart w).
Proof.
  apply (started_signal_settles_once
           (exec [Start; Elapse 1500] (constructor "client"))).
  - apply reachable_exec. constructor.
  - vm_compute. discriminate.
Defined.

(** X3.  The stopped signal is never rejected: it is resolved exactly in the
    sessions in which [stop()] has assigned [Stopped], and pending in all
    others. *)
Theorem stopped_signal_tracks_stop (w : World) :
  reachable w ->
  (outcome w (onStop w) = Fulfilled tt /\ In Stopped (history w))
  \/ (outcome w (onStop w) = Pending /\ ~ In Stopped (history w)).
Proof.
  simpl. induction 1 as [id|ev w Hr IH].
  - right. split; [reflexivity|]. simpl. intros [H | []]. discriminate H.
  - destruct (step_effect ev w Hr)
      as [_ Hhi _ _ _ Hoff | _ _ Hhi _ _ _ Hoff | _ _ Hhi _ _ _ Hoff
          | server _ _ _ Hhi _ _ _ Hoff | _ _ _ Hhi _ _ _ Hoff];
      rewrite Hhi, Hoff.
    + exact IH.
    + destruct IH as [[H1 H2] | [H1 H2]]; [left | right]; split; auto.
      * now right.
      * intros [H | H]; [discriminate H | contradiction].
    + left. split; [reflexivity | now left].
    + destruct IH as [[H1 H2] | [H1 H2]]; [left | right]; split; auto.
      * now right.
      * intros [H | H]; [discriminate H | contradiction].
    + destruct IH as [[H1 H2] | [H1 H2]]; [left | right]; split; auto.
      * now right.
      * intros [H | H]; [discriminate H | contradiction].
Qed.

Lemma stopped_signal_tracks_stop_witness :
  let w := exec [Stop] (constructor "client") in
  (outcome w (onStop w) = Fulfilled tt /\ In Stopped (history w))
  \/ (outcome w (onStop w) = Pending /\ ~ In Stopped (history w)).
Proof.
  apply (stopped_signal_tracks_stop (exec [Stop] (constructor "client"))).
  apply reachable_exec. constructor.
Defined.

(** ** Operations on a running client *)

Lemma running_has_server (w : World) :
  reachable w -> state w = Running ->
  exists server, _server w = Some server /\ serverDeferred w = Fulfilled server.
Proof.
  intros Hr Hst. apply reachable_consistent in Hr.
  open_world w. open_consistent Hr. subst st.
  destruct rc; shape_cases; eauto.
Qed.

(** X4.  The defensive error 'No server is configured' is never thrown in a
    session: whenever the state is [Running] a server is stored, the one the
    server deferred was resolved with, and [checkedServer] returns it. *)
Theorem no_server_error_unreachable (w : World) :
  reachable w ->
  checkedServer w <> Throws (no_server_error (id w))
  /\ (state w = Running ->
      exists server,
        checkedServer w = Returns server
        /\ serverDeferred w = Fulfilled server).
Proof.
  intros Hr. split.
  - unfold checkedServer, checkState.
    destruct (state w) eqn:Hst;
      try (intros H; apply (error_messages_distinct (id w) (id w));
           congruence).
    destruct (running_has_server w Hr Hst) as (server & -> & _).
    discriminate.
  - intros Hst. destruct (running_has_server w Hr Hst) as (server & Hsv & Hsd).
    exists server. split; [|assumption].
    unfold checkedServer, checkState. now rewrite Hst, Hsv.
Qed.

Lemma no_server_error_unreachable_witness :
  checkedServer (running_with quiet_server)
  <> Throws (no_server_error (id (running_with quiet_server)))
  /\ (state (running_with quiet_server) = Running ->
      exists server,
        checkedServer (running_with quiet_server) = Returns server
        /\ serverDeferred (running_with quiet_server) = Fulfilled server).
Proof.
  apply (no_server_error_unreachable (running_with quiet_server)).
  apply reachable_running_with.
Defined.

(** X5.  On a running client each of the five operations makes one call to
    the stored server, hands back what that call returns or throws, and
    changes nothing else: a failing server call leaves the client
    [Running]. *)
Theorem running_client_forwards_verbatim (w : World) :
  reachable w ->
  state w = Running ->
  exists server,
    _server w = Some server
    /\ (forall params,
          initializeServer params w
          = (record_call (CallInitialize params) w,
             Server.initialize server params))
    /\ (forall params,
          initializeClientSession params w
          = (record_call (CallInitializeClientSession params) w,
             Server.initializeClientSession server params))
    /\ (forall params,
          disposeClientSession params w
          = (record_call (CallDisposeClientSession params) w,
             Server.disposeClientSession server params))
    /\ shutdownServer w = (record_call CallShutdown w, Server.shutdown server)
    /\ (forall message,
          sendActionMessage message w
          = (record_call (CallProcess message) w,
             Server.process server message))
    /\ (forall c, client (record_call c w) = client w).
Proof.
  intros Hr Hst. destruct (running_has_server w Hr Hst) as (server & Hsv & _).
  exists server. split; [assumption|].
  unfold initializeServer, initializeClientSession, disposeClientSession,
    shutdownServer, sendActionMessage, checkedServer, checkState.
  rewrite Hst, Hsv. repeat split.
Qed.

Lemma running_client_forwards_verbatim_witness :
  exists server,
    _server (running_with (failing_shutdown_server "down")) = Some server
    /\ shutdownServer (running_with (failing_shutdown_server "down"))
       = (record_call CallShutdown (running_with (failing_shutdown_server "down")),
          Server.shutdown server).
Proof.
  destruct (running_client_forwards_verbatim
              (running_with (failing_shutdown_server "down"))
              (reachable_running_with _))
    as (server & Hsv & _ & _ & _ & Hshutdown & _).
  - vm_compute. reflexivity.
  - exists server. split; assumption.
Defined.

(** ** A stopped client *)

Lemma perform_not_running op (w : World) :
  state w <> Running -> perform op w = (w, Some (not_running_error (id w))).
Proof.
  open_world w. simpl. intros Hne.
  destruct op; destruct st; try congruence; reflexivity.
Qed.

Lemma stopped_decided_step ev (w : World) :
  state w = Stopped -> race w = Reacted ->
  state (step ev w) = Stopped /\ race (step ev w) = Reacted
  /\ calls (step ev w) = calls w /\ _server (step ev w) = _server w
  /\ id (step ev w) = id w.
Proof.
  intros Hst Hrc.
  destruct ev; simpl; try rewrite proxy_process_after;
    open_world w; simpl in *; subst; unfold_step; repeat split.
Qed.

(** X6.  A client stopped after its start was decided stays [Stopped] for
    good: whatever is called later, the server receives no further call, the
    stored server stays as it is, and each of the five operations throws the
    'not in Running state' error. *)
Theorem stopped_after_start_is_final (w : World) :
  reachable w ->
  state w = Stopped ->
  outcome w (onStart w) <> Pending ->
  forall evs,
    state (exec evs w) = Stopped
    /\ calls (exec evs w) = calls w
    /\ _server (exec evs w) = _server w
    /\ forall op,
        perform op (exec evs w)
        = (exec evs w, Some (not_running_error (id w))).
Proof.
  intros Hr Hst Hset evs.
  assert (Hrc : race w = Reacted).
  { apply reachable_consistent in Hr. open_world w. open_consistent Hr.
    destruct rc; shape_cases; congruence. }
  clear Hr Hset.
  assert (H : state (exec evs w) = Stopped /\ race (exec evs w) = Reacted
              /\ calls (exec evs w) = calls w
              /\ _server (exec evs w) = _server w
              /\ id (exec evs w) = id w).
  { revert w Hst Hrc. induction evs as [|ev evs IH]; intros w Hst Hrc; simpl.
    - repeat split; assumption.
    - destruct (stopped_decided_step ev w Hst Hrc) as (Hst' & Hrc' & Hcl & Hsv & Hid).
      destruct (IH (step ev w) Hst' Hrc') as (H1 & H2 & H3 & H4 & H5).
      repeat split; congruence. }
  destruct H as (H1 & _ & H3 & H4 & H5).
  repeat split; try assumption.
  intros op. rewrite <- H5. apply perform_not_running. congruence.
Qed.

Lemma stopped_after_start_is_final_witness :
  let w := exec [Stop] (running_with quiet_server) in
  let evs := [Start; ConfigureServer quiet_server; EndOfTask; Elapse 2000] in
  state (exec evs w) = Stopped
  /\ calls (exec evs w) = calls w
  /\ _server (exec evs w) = _server w
  /\ forall op,
      perform op (exec evs w)
      = (exec evs w, Some (not_running_error (id w))).
Proof.
  apply (stopped_after_start_is_final (exec [Stop] (running_with quiet_server))).
  - apply reachable_exec. apply reachable_running_with.
  - vm_compute. reflexivity.
  - vm_compute. discriminate.
Defined.

Lemma stopped_unstarted_step ev (w : World) :
  state w = Stopped -> race w = NotCreated ->
  onStartDeferred w = Pending -> _server w = None ->
  state (step ev w) = Stopped /\ race (step ev w) = NotCreated
  /\ onStartDeferred (step ev w) = Pending /\ _server (step ev w) = None
  /\ calls (step ev w) = calls w.
Proof.
  intros Hst Hrc Hon Hsv.
  destruct ev; simpl; try rewrite proxy_process_after;
    open_world w; simpl in *; subst; unfold_step; repeat split.
Qed.

(** X7.  [stop()] on a client that was never started makes [start()]
    useless: the client stays [Stopped], a later [start()] changes nothing,
    and the started signal it returns stays pending whatever happens; no
    server is ever stored or called. *)
Theorem start_after_stop_never_settles (w : World) :
  reachable w ->
  state w = Initial ->
  forall evs,
    let w' := exec evs (fst (stop w)) in
    state w' = Stopped
    /\ start w' = (w', onStart w')
    /\ outcome w' (onStart w') = Pending
    /\ _server w' = None
    /\ calls w' = calls w.
Proof.
  intros Hr Hst evs.
  assert (Hw : race w = NotCreated /\ onStartDeferred w = Pending
               /\ _server w = None).
  { apply reachable_consistent in Hr. open_world w. open_consistent Hr.
    subst st. destruct rc; shape_cases; auto. }
  destruct Hw as (Hrc & Hon & Hsv). clear Hr.
  assert (H0 : state (fst (stop w)) = Stopped /\ race (fst (stop w)) = NotCreated
               /\ onStartDeferred (fst (stop w)) = Pending
               /\ _server (fst (stop w)) = None
               /\ calls (fst (stop w)) = calls w).
  { open_world w. simpl in *. subst. repeat split. }
  destruct H0 as (Hst1 & Hrc1 & Hon1 & Hsv1 & Hcl1).
  rewrite <- Hcl1. generalize dependent (fst (stop w)). clear.
  intros w1 Hst Hrc Hon Hsv.
  assert (H : state (exec evs w1) = Stopped /\ race (exec evs w1) = NotCreated
              /\ onStartDeferred (exec evs w1) = Pending
              /\ _server (exec evs w1) = None
              /\ calls (exec evs w1) = calls w1).
  { revert w1 Hst Hrc Hon Hsv.
    induction evs as [|ev evs IH]; intros w1 Hst Hrc Hon Hsv; simpl.
    - repeat split; assumption.
    - destruct (stopped_unstarted_step ev w1 Hst Hrc Hon Hsv)
        as (H1 & H2 & H3 & H4 & H5).
      destruct (IH (step ev w1) H1 H2 H3 H4) as (G1 & G2 & G3 & G4 & G5).
      repeat split; congruence. }
  destruct H as (H1 & _ & H3 & H4 & H5).
  cbv zeta. repeat split; try assumption.
  unfold start. now rewrite H1.
Qed.

Lemma start_after_stop_never_settles_witness :
  let w' := exec [Start; ConfigureServer quiet_server; EndOfTask; Elapse 2000]
                 (fst (stop (constructor "client"))) in
  state w' = Stopped
  /\ start w' = (w', onStart w')
  /\ outcome w' (onStart w') = Pending
  /\ _server w' = None
  /\ calls w' = calls (constructor "client").
Proof.
  apply (start_after_stop_never_settles (constructor "client")).
  - constructor.
  - reflexivity.
Defined.

(** ** Attachment and the deadline *)

(** X8.  On a client in state [Initial] the order of [configureServer()]
    and [start()] does not matter: both orders give the same world, and with
    the server deferred still pending the end of the task finds the client
    [Running] with that server stored. *)
Theorem configure_and_start_commute (w : World) server :
  reachable w ->
  state w = Initial ->
  exec [ConfigureServer server; Start] w = exec [Start; ConfigureServer server] w
  /\ (serverDeferred w = Pending ->
      let w' := exec [ConfigureServer server; Start; EndOfTask] w in
      state w' = Running
      /\ _server w' = Some server
      /\ outcome w' (onStart w') = Fulfilled tt).
Proof.
  intros Hr Hst. apply reachable_consistent in Hr.
  open_world w. open_consistent Hr. subst st.
  destruct rc; shape_cases. split.
  - reflexivity.
  - simpl. intros ->. repeat split.
Qed.

Lemma configure_and_start_commute_witness :
  exec [ConfigureServer quiet_server; Start] (constructor "client")
  = exec [Start; ConfigureServer quiet_server] (constructor "client")
  /\ (serverDeferred (constructor "client") = Pending ->
      let w' := exec [ConfigureServer quiet_server; Start; EndOfTask]
                     (constructor "client") in
      state w' = Running
      /\ _server w' = Some quiet_server
      /\ outcome w' (onStart w') = Fulfilled tt).
Proof.
  apply (configure_and_start_commute (constructor "client") quiet_server).
  - constructor.
  - reflexivity.
Defined.



(** X10.  With no server attached, a start made after
    [setStartupTimeout(ms)] fails exactly when the time that passes reaches
    the delay [setTimeout] makes of [ms], which is [ms] itself from 1 up to
    [TIMEOUT_MAX] and 1 otherwise; before that the client is [Starting]. *)
Theorem startup_deadline (w : World) ms d :
  reachable w ->
  state w = Initial ->
  serverDeferred w = Pending ->
  state (exec [SetStartupTimeout ms; Start; Elapse d] w)
  = (if setTimeout_delay ms <=? Z.max 0 d then StartFailed else Starting)
  /\ (1 <= ms <= TIMEOUT_MAX -> setTimeout_delay ms = ms)
  /\ (ms < 1 \/ TIMEOUT_MAX < ms -> setTimeout_delay ms = 1).
Proof.
  intros Hr Hst Hsd. split; [|split; apply setTimeout_delay_spec].
  apply reachable_consistent in Hr.
  open_world w. open_consistent Hr. subst st sd.
  unfold elapse, runMicrotasks, fireTimer, advance. simpl.
  replace (now + setTimeout_delay ms <=? now + Z.max 0 d)
    with (setTimeout_delay ms <=? Z.max 0 d).
  - destruct (setTimeout_delay ms <=? Z.max 0 d); reflexivity.
  - destruct (setTimeout_delay ms <=? Z.max 0 d) eqn:E; symmetry.
    + apply Z.leb_le. apply Z.leb_le in E. lia.
    + apply Z.leb_gt. apply Z.leb_gt in E. lia.
Qed.

Lemma startup_deadline_witness :
  state (exec [SetStartupTimeout 2147483648; Start; Elapse 20]
              (constructor "client"))
  = (if setTimeout_delay 2147483648 <=? Z.max 0 20 then StartFailed else Starting)
  /\ (1 <= 2147483648 <= TIMEOUT_MAX -> setTimeout_delay 2147483648 = 2147483648)
  /\ (2147483648 < 1 \/ TIMEOUT_MAX < 2147483648 ->
      setTimeout_delay 2147483648 = 1).
Proof.
  apply (startup_deadline (constructor "client") 2147483648 20).
  - constructor.
  - reflexivity.
  - reflexivity.
Defined.

(** X11.  Before [start()] and after the started signal has settled, the
    end of a task and the passing of time change no field of the client: a
    timer that comes due after the race was decided does nothing. *)
Theorem time_changes_nothing_once_decided (w : World) d :
  reachable w ->
  state w = Initial \/ outcome w (onStart w) <> Pending ->
  client (runMicrotasks w) = client w /\ client (elapse d w) = client w.
Proof.
  intros Hr Hdec.
  assert (Hrc : race w <> Armed).
  { intros Hrc. destruct (open_race_is_unsettled w Hr Hrc) as (Hon & _ & Hne).
    destruct Hdec as [Hst | Hset]; [contradiction|]. apply Hset. exact Hon. }
  clear Hr Hdec. open_world w. simpl in Hrc.
  unfold elapse, runMicrotasks, fireTimer, advance. simpl.
  destruct rc; try congruence; simpl;
    (split; [reflexivity|]);
    destruct tm as [due|]; simpl; try destruct (due <=? _); reflexivity.
Qed.

Lemma time_changes_nothing_once_decided_witness :
  client (runMicrotasks (running_with quiet_server))
  = client (running_with quiet_server)
  /\ client (elapse 5000 (running_with quiet_server))
     = client (running_with quiet_server).
Proof.
  apply (time_changes_nothing_once_decided (running_with quiet_server) 5000).
  - apply reachable_running_with.
  - right. vm_compute. discriminate.
Defined.

(** ** Shutdown requests *)

Lemma shutdown_count_step ev (w : World) :
  ev <> ShutdownServer ->
  shutdown_count (step ev w)
  = match ev with
    | Stop => (shutdowns_by_stop w + shutdown_count w)%nat
    | _ => shutdown_count w
    end.
Proof.
  intros Hne. unfold shutdown_count, shutdowns_by_stop, stop_takes_effect.
  destruct ev; simpl; try congruence; try rewrite proxy_process_after;
    open_world w; simpl; unfold_step; reflexivity.
Qed.

Lemma stop_keeps_race (w : World) : race (fst (stop w)) = race w.
Proof. open_world w. unfold_step; reflexivity. Qed.

Lemma stop_reaches_stopped (w : World) :
  stop_takes_effect w = true -> state (fst (stop w)) = Stopped.
Proof.
  intros Heff. pose proof (stop_effect w Heff) as H.
  destruct (stop w) as [w1 s1]. apply H.
Qed.

(** X12.  Whatever the interleaving of calls, tasks and timers, [stop()]
    asks the server to shut down at most once in a session: in a session
    without [shutdownServer()] calls the server sees at most one
    [shutdown()]. *)
Theorem stop_shuts_down_at_most_once id evs :
  Forall (fun ev => ev <> ShutdownServer) evs ->
  (shutdown_count (exec evs (constructor id)) <= 1)%nat.
Proof.
  intros Hevs.
  assert (H : forall w,
             reachable w ->
             shutdown_count w = 0%nat
             \/ (shutdown_count w = 1%nat /\ state w = Stopped /\ race w = Reacted) ->
             shutdown_count (exec evs w) = 0%nat
             \/ (shutdown_count (exec evs w) = 1%nat
                 /\ state (exec evs w) = Stopped /\ race (exec evs w) = Reacted)).
  { induction Hevs as [|ev evs Hev _ IH]; intros w Hr Hw; simpl; [assumption|].
    apply IH; [now constructor|].
    pose proof (shutdown_count_step ev w Hev) as Hcount.
    destruct Hw as [Hzero | (Hone & Hst & Hrc)].
    - destruct ev; try (left; congruence).
      rewrite Hcount, Hzero, Nat.add_0_r.
      unfold shutdowns_by_stop.
      destruct (stop_takes_effect w) eqn:Heff; [|now left].
      destruct (_server w) as [server|] eqn:Hsv; [|now left].
      right. split; [reflexivity|]. simpl. split.
      * now apply stop_reaches_stopped.
      * rewrite stop_keeps_race.
        apply reachable_consistent in Hr.
        open_world w. open_consistent Hr. simpl in Hsv. subst sv.
        destruct rc; shape_cases; reflexivity.
    - destruct (stopped_decided_step ev w Hst Hrc) as (Hst' & Hrc' & Hcl & _).
      right. unfold shutdown_count in *. rewrite Hcl. auto. }
  destruct (H (constructor id) (reachable_new id)) as [Hz | (Ho & _)].
  - left. reflexivity.
  - rewrite Hz. auto.
  - rewrite Ho. auto.
Qed.

Lemma stop_shuts_down_at_most_once_witness :
  (shutdown_count
     (exec [Start; Stop; ConfigureServer quiet_server; EndOfTask; Stop; Stop]
           (constructor "client")) <= 1)%nat.
Proof.
  apply (stop_shuts_down_at_most_once "client"
           [Start; Stop; ConfigureServer quiet_server; EndOfTask; Stop; Stop]).
  repeat constructor; discriminate.
Defined.

(** ** Handlers registered or disposed on the way *)

Lemma present_stays_present cs array h :
  In h array -> ~ In (Unsubscribe h) cs ->
  In h (fold_left registry_step cs array).
Proof.
  revert array. induction cs as [|c cs IH]; simpl; intros array Hin Hno; [assumption|].
  apply IH; [|tauto].
  destruct c as [x|x]; simpl.
  - apply In_distinctAdd. now left.
  - apply In_remove_other; [|assumption].
    intros ->. apply Hno. now left.
Qed.

Lemma subscribed_is_present cs array h :
  In (Subscribe h) cs -> ~ In (Unsubscribe h) cs ->
  In h (fold_left registry_step cs array).
Proof.
  revert array. induction cs as [|c cs IH]; simpl; intros array Hin Hno; [contradiction|].
  destruct Hin as [-> | Hin].
  - apply present_stays_present; [|tauto]. simpl. apply In_distinctAdd. now right.
  - apply IH; tauto.
Qed.

(** X13.  A handler that is not registered when a dispatch begins is not
    called in that dispatch, even when a handler registers it on the way.
    If it is registered during the dispatch and not disposed in it, it is
    in the array afterwards and the next dispatch in which no handler
    throws calls it. *)
Theorem handler_registered_during_dispatch behaviour message (w : World) h :
  reachable w ->
  ~ In h (actionMessageHandlers w) ->
  let d := proxy_process behaviour message w in
  ~ In h (called d)
  /\ (In (Subscribe h)
         (dispatch_calls behaviour message (actionMessageHandlers w)) ->
      ~ In (Unsubscribe h)
           (dispatch_calls behaviour message (actionMessageHandlers w)) ->
      In h (actionMessageHandlers (after d))
      /\ forall behaviour' message',
          (forall h' e, In h' (actionMessageHandlers (after d)) ->
                        completion (behaviour' h' message') <> Throws e) ->
          In h (called (proxy_process behaviour' message' (after d)))).
Proof.
  intros Hr Hnin d. split.
  - subst d. rewrite called_spec. intros Hin. apply Hnin.
    eapply In_invoked_handlers. eassumption.
  - intros Hsub Hno.
    assert (Hin : In h (actionMessageHandlers (after d))).
    { subst d. rewrite proxy_process_after. simpl.
      now apply subscribed_is_present. }
    split; [assumption|].
    intros behaviour' message' Hret.
    rewrite called_spec, (invoked_handlers_all _ _ _ Hret). assumption.
Qed.

Lemma handler_registered_during_dispatch_witness :
  let recruiting : Behaviour :=
    fun _ _ => {| registry_calls := [Subscribe 3]; completion := Returns tt |} in
  let d := proxy_process recruiting ping two_handlers in
  ~ In 3%nat (called d)
  /\ In 3%nat (actionMessageHandlers (after d))
  /\ In 3%nat (called (proxy_process passive ping (after d))).
Proof.
  intros recruiting d.
  destruct (handler_registered_during_dispatch recruiting ping two_handlers 3%nat
              reachable_two_handlers) as [Hnot Hnext].
  - vm_compute. intros [H | [H | []]]; discriminate H.
  - destruct Hnext as [Hin Hcalled].
    + vm_compute. left. reflexivity.
    + vm_compute. intros [H | [H | []]]; discriminate H.
    + split; [exact Hnot | split; [exact Hin|]].
      apply Hcalled. intros h' e _. simpl. discriminate.
Defined.

Lemma remove_appended array value :
  ~ In value array -> remove (array ++ [value]) value = array.
Proof.
  induction array as [|x l IH]; simpl; intros Hnin.
  - now rewrite Nat.eqb_refl.
  - destruct (Nat.eqb value x) eqn:E.
    + apply Nat.eqb_eq in E. subst. tauto.
    + f_equal. apply IH. tauto.
Qed.

(** X14.  Registering a handler that was not registered and disposing the
    returned [Disposable] gives back the world as it was.  Registrations
    are not counted: when the handler was registered already, the second
    registration changes nothing and disposing its [Disposable] removes the
    handler altogether.  Disposing twice is the same as disposing once. *)
Theorem register_dispose_round_trip handler (w : World) :
  reachable w ->
  let w1 := fst (onActionMessage handler w) in
  let d := snd (onActionMessage handler w) in
  (~ In handler (actionMessageHandlers w) -> dispose d w1 = w)
  /\ (In handler (actionMessageHandlers w) ->
      w1 = w /\ ~ In handler (actionMessageHandlers (dispose d w1)))
  /\ dispose d (dispose d w1) = dispose d w1.
Proof.
  intros Hr w1 d.
  assert (Hnd : NoDup (actionMessageHandlers w)).
  { apply reachable_consistent in Hr. apply Hr. }
  assert (Hnd1 : NoDup (actionMessageHandlers w1)).
  { subst w1. simpl. now apply NoDup_distinctAdd. }
  split; [|split].
  - intros Hnin. subst w1 d. unfold dispose, onActionMessage. simpl.
    rewrite (distinctAdd_absent _ _ Hnin), (remove_appended _ _ Hnin).
    transitivity (assign_actionMessageHandlers (actionMessageHandlers w) w);
      [reflexivity | apply assign_handlers_same].
  - intros Hin. split.
    + now apply onActionMessage_registered.
    + subst d. simpl. now apply remove_NoDup_gone.
  - subst d. unfold dispose. simpl.
    rewrite (remove_absent (remove (actionMessageHandlers w1) handler)).
    + reflexivity.
    + now apply remove_NoDup_gone.
Qed.

Lemma register_dispose_round_trip_witness :
  let w1 := fst (onActionMessage 5 two_handlers) in
  let d := snd (onActionMessage 5 two_handlers) in
  (~ In 5%nat (actionMessageHandlers two_handlers) -> dispose d w1 = two_handlers)
  /\ (In 5%nat (actionMessageHandlers two_handlers) ->
      w1 = two_handlers /\ ~ In 5%nat (actionMessageHandlers (dispose d w1)))
  /\ dispose d (dispose d w1) = dispose d w1.
Proof.
  apply (register_dispose_round_trip 5 two_handlers reachable_two_handlers).
Defined.

(** * Properties of the chat widget *)

Lemma classList_add_In token l : In token (AiAssistantUi.classList_add token l).
Proof.
  unfold AiAssistantUi.classList_add.
  destruct (existsb (String.eqb token) l) eqn:E.
  - apply existsb_exists in E. destruct E as (x & Hin & Heq).
    apply String.eqb_eq in Heq. now subst.
  - apply in_or_app. right. now left.
Qed.

Lemma classList_remove_not_In token l :
  ~ In token (AiAssistantUi.classList_remove token l).
Proof.
  unfold AiAssistantUi.classList_remove. rewrite filter_In.
  intros [_ H]. now rewrite String.eqb_refl in H.
Qed.

Lemma icons_differ : AiAssistantUi.SEND_ICON <> AiAssistantUi.STOP_ICON.
Proof.
  intros H.
  assert (E : String.eqb AiAssistantUi.SEND_ICON AiAssistantUi.STOP_ICON = false)
    by (vm_compute; reflexivity).
  apply String.eqb_neq in E. contradiction.
Qed.

Section WidgetProperties.

Variable trim : string -> string.
Variable makeHtml : string -> string.

Lemma in_sync_setWaiting ui :
  AiAssistantUi.in_sync (AiAssistantUi.setWaiting ui).
Proof.
  unfold AiAssistantUi.in_sync. simpl. repeat split. apply classList_add_In.
Qed.

Lemma in_sync_unsetWaiting ui :
  AiAssistantUi.in_sync (AiAssistantUi.unsetWaiting ui).
Proof.
  unfold AiAssistantUi.in_sync. simpl. repeat split.
  apply classList_remove_not_In.
Qed.

Lemma in_sync_react ui ev :
  AiAssistantUi.in_sync ui ->
  AiAssistantUi.in_sync (AiAssistantUi.react trim makeHtml ui ev).
Proof.
  intros H. destruct ev as [value| |key|action|message|reason]; simpl.
  - exact H.
  - unfold AiAssistantUi.handleButtonClick.
    destruct (AiAssistantUi.isWaitingForResponse ui) eqn:Hw.
    + apply in_sync_unsetWaiting.
    + unfold AiAssistantUi.sendMessageToAssistant.
      destruct (String.eqb _ ""); [exact H|].
      unfold AiAssistantUi.in_sync. simpl. repeat split.
      apply classList_add_In.
  - unfold AiAssistantUi.onKeydown. destruct (String.eqb key "Enter"); [|exact H].
    unfold AiAssistantUi.sendMessageToAssistant.
    destruct (String.eqb _ ""); [exact H|].
    unfold AiAssistantUi.in_sync. simpl. repeat split.
    apply classList_add_In.
  - destruct action; exact H.
  - unfold AiAssistantUi.requestFulfilled.
    destruct (AiAssistantUi.pending ui); [exact H|].
    unfold AiAssistantUi.in_sync. simpl. repeat split.
    apply classList_remove_not_In.
  - unfold AiAssistantUi.requestRejected, AiAssistantUi.requestFulfilled.
    destruct (AiAssistantUi.pending ui); [exact H|].
    unfold AiAssistantUi.in_sync. simpl. repeat split.
    apply classList_remove_not_In.
Qed.

(** X15.  Whatever the user and the server do, the flag
    [isWaitingForResponse], the icon and class name of the send button and
    the 'loading' class of the container agree: either all four say that a
    response is awaited or none does.  The container must not carry the
    class 'loading' to begin with. *)
Theorem waiting_state_in_sync classes evs :
  ~ In "loading"%string classes ->
  AiAssistantUi.in_sync (AiAssistantUi.session trim makeHtml classes evs)
  /\ AiAssistantUi.SEND_ICON <> AiAssistantUi.STOP_ICON.
Proof.
  intros Hclasses. split; [|exact icons_differ].
  unfold AiAssistantUi.session.
  assert (H0 : AiAssistantUi.in_sync
                 (AiAssistantUi.initializeContents makeHtml classes)).
  { unfold AiAssistantUi.in_sync. simpl. repeat split. exact Hclasses. }
  revert H0. generalize (AiAssistantUi.initializeContents makeHtml classes).
  induction evs as [|ev evs IH]; intros ui H; simpl; [exact H|].
  apply IH. now apply in_sync_react.
Qed.


Lemma widget_record_send ui :
  AiAssistantUi.widget_record trim ui ->
  AiAssistantUi.widget_record trim
    (AiAssistantUi.sendMessageToAssistant trim makeHtml ui).
Proof.
  intros (Hall & Hcount). unfold AiAssistantUi.sendMessageToAssistant.
  destruct (String.eqb (trim (AiAssistantUi.messageInput_value ui)) "") eqn:E.
  - split; assumption.
  - apply String.eqb_neq in E.
    unfold AiAssistantUi.widget_record, AiAssistantUi.cancels,
      AiAssistantUi.requested in *.
    simpl. rewrite flat_map_app, length_app. simpl.
    split.
    + apply Forall_app. split; [assumption|].
      constructor; [|constructor]. split; [assumption | eauto].
    + destruct (AiAssistantUi.isWaitingForResponse ui); lia.
Qed.

Lemma widget_record_react ui ev :
  AiAssistantUi.widget_record trim ui ->
  AiAssistantUi.widget_record trim (AiAssistantUi.react trim makeHtml ui ev).
Proof.
  intros H. destruct ev as [value| |key|action|message|reason]; simpl.
  - exact H.
  - unfold AiAssistantUi.handleButtonClick.
    destruct (AiAssistantUi.isWaitingForResponse ui) eqn:Hw.
    + destruct H as (Hall & Hcount). rewrite Hw in Hcount.
      unfold AiAssistantUi.widget_record, AiAssistantUi.cancels,
        AiAssistantUi.requested in *.
      simpl. rewrite flat_map_app. simpl. rewrite app_nil_r.
      split; [assumption | lia].
    + now apply widget_record_send.
  - unfold AiAssistantUi.onKeydown. destruct (String.eqb key "Enter"); [|exact H].
    now apply widget_record_send.
  - destruct action; exact H.
  - unfold AiAssistantUi.requestFulfilled.
    destruct (AiAssistantUi.pending ui); [exact H|].
    destruct H as (Hall & Hcount).
    unfold AiAssistantUi.widget_record, AiAssistantUi.cancels,
      AiAssistantUi.requested in *.
    simpl. split; [assumption|].
    destruct (AiAssistantUi.isWaitingForResponse ui); lia.
  - unfold AiAssistantUi.requestRejected, AiAssistantUi.requestFulfilled.
    destruct (AiAssistantUi.pending ui); [exact H|].
    destruct H as (Hall & Hcount).
    unfold AiAssistantUi.widget_record, AiAssistantUi.cancels,
      AiAssistantUi.requested in *.
    simpl. split; [assumption|].
    destruct (AiAssistantUi.isWaitingForResponse ui); lia.
Qed.

Lemma widget_record_session classes evs :
  AiAssistantUi.widget_record trim
    (AiAssistantUi.session trim makeHtml classes evs).
Proof.
  unfold AiAssistantUi.session.
  assert (H0 : AiAssistantUi.widget_record trim
                 (AiAssistantUi.initializeContents makeHtml classes)).
  { split; simpl; auto. }
  revert H0. generalize (AiAssistantUi.initializeContents makeHtml classes).
  induction evs as [|ev evs IH]; intros ui H; simpl; [exact H|].
  apply IH. now apply widget_record_react.
Qed.


(** X17.  A cancel action is dispatched only for a request that is awaited:
    at every moment the cancels dispatched, plus one if a response is being
    awaited, number at most the requests dispatched. *)
Theorem cancels_follow_requests classes evs :
  let ui := AiAssistantUi.session trim makeHtml classes evs in
  (AiAssistantUi.cancels ui
   + (if AiAssistantUi.isWaitingForResponse ui then 1 else 0)
   <= List.length (AiAssistantUi.requested ui))%nat.
Proof.
  destruct (widget_record_session classes evs) as (_ & H). exact H.
Qed.

End WidgetProperties.

Lemma waiting_state_in_sync_witness :
  AiAssistantUi.in_sync
    (AiAssistantUi.session (fun s => s) (fun s => s) ["ui-extension"%string]
       [AiAssistantUi.Typed "rename the task"; AiAssistantUi.Click])
  /\ AiAssistantUi.SEND_ICON <> AiAssistantUi.STOP_ICON.
Proof.
  apply (waiting_state_in_sync (fun s => s) (fun s => s) ["ui-extension"%string]
           [AiAssistantUi.Typed "rename the task"; AiAssistantUi.Click]).
  simpl. intros [H | []]. discriminate H.
Defined.

(** * More on the lifecycle of the client *)

(** X18.  Attaching a server does not make a client usable at once: after
    [start()] and [configureServer(server)] in one task the state is still
    [Starting], every operation throws the 'not in Running state' error and
    nothing reaches the server; once the task has ended the same operation
    is forwarded. *)
Theorem attached_client_is_ready_after_the_task (w : World) server op :
  reachable w ->
  state w = Initial ->
  serverDeferred w = Pending ->
  let w1 := exec [Start; ConfigureServer server] w in
  state w1 = Starting
  /\ perform op w1 = (w1, Some (not_running_error (id w)))
  /\ fst (perform op (step EndOfTask w1))
     = record_call (forwarded op) (step EndOfTask w1).
Proof.
  intros Hr Hst Hsd. apply reachable_consistent in Hr.
  open_world w. open_consistent Hr. subst st sd.
  destruct rc; shape_cases.
  cbv zeta. unfold exec. simpl fold_left. unfold_step.
  generalize (now + setTimeout_delay ms). intros due.
  repeat split; destruct op; reflexivity.
Qed.

Lemma attached_client_is_ready_after_the_task_witness :
  let w1 := exec [Start; ConfigureServer quiet_server] (constructor "client") in
  state w1 = Starting
  /\ perform (OpSendActionMessage ping) w1
     = (w1, Some (not_running_error (id (constructor "client"))))
  /\ fst (perform (OpSendActionMessage ping) (step EndOfTask w1))
     = record_call (forwarded (OpSendActionMessage ping)) (step EndOfTask w1).
Proof.
  apply (attached_client_is_ready_after_the_task
           (constructor "client") quiet_server (OpSendActionMessage ping)).
  - constructor.
  - reflexivity.
  - reflexivity.
Defined.

Lemma initial_race (w : World) :
  reachable w -> state w = Initial -> race w = NotCreated.
Proof.
  intros Hr Hst. apply reachable_consistent in Hr.
  open_world w. open_consistent Hr. subst st.
  destruct rc; shape_cases; reflexivity.
Qed.

Lemma decided_counts (w : World) :
  reachable w ->
  match race w with
  | Reacted =>
      (assigned Running w = 1%nat /\ assigned StartFailed w = 0%nat
       /\ onStartDeferred w = Fulfilled tt)
      \/ (assigned Running w = 0%nat /\ assigned StartFailed w = 1%nat
          /\ onStartDeferred w = Rejected startup_timeout_error)
  | _ =>
      assigned Running w = 0%nat /\ assigned StartFailed w = 0%nat
      /\ onStartDeferred w = Pending
  end.
Proof.
  induction 1 as [id|ev w Hr IH].
  - repeat split.
  - unfold assigned in *.
    destruct (step_effect ev w Hr)
      as [_ Hhi _ Hrc Hon _ | Hst _ Hhi _ Hrc Hon _ | _ _ Hhi _ Hrc Hon _
          | server Hrc0 _ _ Hhi _ Hrc Hon _ | Hrc0 _ _ Hhi _ Hrc Hon _];
      rewrite Hhi, Hrc, Hon; simpl.
    + exact IH.
    + rewrite (initial_race w Hr Hst) in IH. exact IH.
    + exact IH.
    + rewrite Hrc0 in IH. destruct IH as (-> & -> & _). left. repeat split.
    + rewrite Hrc0 in IH. destruct IH as (-> & -> & _). right. repeat split.
Qed.

(** X19.  The outcome of a start is decided once: over a whole session
    [Running] and [StartFailed] are assigned at most once between them.
    [Running] has been assigned exactly when the started signal is resolved,
    [StartFailed] exactly when it is rejected, and neither while it is
    pending. *)
Theorem start_outcome_is_decided_once (w : World) :
  reachable w ->
  (assigned Running w + assigned StartFailed w <= 1)%nat
  /\ (assigned Running w = 1%nat <-> outcome w (onStart w) = Fulfilled tt)
  /\ (assigned StartFailed w = 1%nat
      <-> outcome w (onStart w) = Rejected startup_timeout_error)
  /\ ((assigned Running w + assigned StartFailed w)%nat = 0%nat
      <-> outcome w (onStart w) = Pending).
Proof.
  intros Hr. pose proof (decided_counts w Hr) as H. simpl.
  destruct (race w);
    [ destruct H as (-> & -> & ->)
    | destruct H as (-> & -> & ->)
    | destruct H as [(-> & -> & ->) | (-> & -> & ->)] ];
    simpl; repeat split; intros; auto; try discriminate; try lia.
Qed.

Lemma start_outcome_is_decided_once_witness :
  let w := exec [Start; Stop; ConfigureServer quiet_server; EndOfTask; Stop]
                (constructor "client") in
  (assigned Running w + assigned StartFailed w <= 1)%nat
  /\ (assigned Running w = 1%nat <-> outcome w (onStart w) = Fulfilled tt)
  /\ (assigned StartFailed w = 1%nat
      <-> outcome w (onStart w) = Rejected startup_timeout_error)
  /\ ((assigned Running w + assigned StartFailed w)%nat = 0%nat
      <-> outcome w (onStart w) = Pending).
Proof.
  apply (start_outcome_is_decided_once
           (exec [Start; Stop; ConfigureServer quiet_server; EndOfTask; Stop]
                 (constructor "client"))).
  apply reachable_exec. constructor.
Defined.

(** X20.  [stop()] never ends half way: at the end of every call the state
    is not [Stopping], and [Stopping] has been assigned exactly as often as
    [Stopped], each [Stopping] being followed by [Stopped] at once. *)
Theorem stop_always_completes (w : World) :
  reachable w ->
  state w <> Stopping
  /\ assigned Stopping w = assigned Stopped w
  /\ forall earlier_states later_states,
      history w = (later_states ++ Stopping :: earlier_states)%list ->
      exists rest, later_states = (rest ++ [Stopped])%list.
Proof.
  intros Hr. split; [now apply reachable_not_stopping|].
  induction Hr as [id|ev w Hr IH].
  - split; [reflexivity|].
    intros e l H. simpl in H.
    destruct l as [|x l]; simpl in H; [discriminate H|].
    injection H as _ H. destruct l; discriminate H.
  - destruct IH as [Hcount Hpairs]. unfold assigned in *.
    assert (Hcons : forall s, s <> Stopping -> history (step ev w) = s :: history w ->
              forall e l, history (step ev w) = (l ++ Stopping :: e)%list ->
                          exists rest, l = (rest ++ [Stopped])%list).
    { intros s Hs Hhi e l H. rewrite Hhi in H.
      destruct l as [|x l]; simpl in H.
      - injection H as H _. congruence.
      - injection H as <- H. destruct (Hpairs e l H) as [rest ->].
        exists (s :: rest). reflexivity. }
    destruct (step_effect ev w Hr)
      as [_ Hhi _ _ _ _ | _ _ Hhi _ _ _ _ | _ _ Hhi _ _ _ _
          | server _ _ _ Hhi _ _ _ _ | _ _ _ Hhi _ _ _ _].
    + rewrite Hhi. split; assumption.
    + split; [rewrite Hhi; simpl; assumption|].
      apply (Hcons Starting); [discriminate | assumption].
    + split; [rewrite Hhi; simpl; now rewrite Hcount|].
      intros e l H. rewrite Hhi in H.
      destruct l as [|x l]; simpl in H; [discriminate H|].
      injection H as Hx H. subst x.
      destruct l as [|y l]; simpl in H.
      * exists []. reflexivity.
      * injection H as Hy H. subst y. destruct (Hpairs e l H) as [rest ->].
        exists (Stopped :: Stopping :: rest). reflexivity.
    + split; [rewrite Hhi; simpl; assumption|].
      apply (Hcons Running); [discriminate | assumption].
    + split; [rewrite Hhi; simpl; assumption|].
      apply (Hcons StartFailed); [discriminate | assumption].
Qed.

Lemma stop_always_completes_witness :
  let w := exec [Stop] (running_with (failing_shutdown_server "down")) in
  state w <> Stopping
  /\ assigned Stopping w = assigned Stopped w
  /\ forall earlier_states later_states,
      history w = (later_states ++ Stopping :: earlier_states)%list ->
      exists rest, later_states = (rest ++ [Stopped])%list.
Proof.
  apply (stop_always_completes
           (exec [Stop] (running_with (failing_shutdown_server "down")))).
  apply reachable_exec. apply reachable_running_with.
Defined.
